(** * OpenLayersTMC: the image load wrapper and the style binding bridge

    A shallow embedding of

    - [src/openlayers-master/src/ol/Image.js] ([ImageWrapper]: a browser
      image element wrapped in a four-state load lifecycle), and
    - [src/ngx-openlayers-master/src/components/style.components_old.ts]
      ([StyleIconDirective] and [StyleComponent]: Angular glue pushing an
      icon style into a host feature),

    followed by the properties the specification states about them.

    JavaScript numbers are IEEE 754 doubles: they are embedded as Rocq's
    primitive binary64 floats, so [getHeight(extent) / image.height] is
    the very division the program performs.  Objects with identity (the
    raster elements) are references into a store; calls that leave the
    wrapper (DOM listener registration, the "changed" notification, the
    configured load function) are appended to an effect log.  The
    observers of "changed" and the load function are code of the caller:
    they are taken to return without calling back into the wrapper, as the
    single event queue of the platform has completion signals arrive
    between calls, never inside one. *)

From Stdlib Require Import PrimFloat List String Bool Arith Lia.
Import ListNotations.

(** ** A small error monad: [None] is a thrown [TypeError] *)

Definition bind {A B : Type} (c : option A) (k : A -> option B) : option B :=
  match c with
  | Some a => k a
  | None => None
  end.

Notation "'let?' x ':=' c 'in' k" := (bind c (fun x => k))
  (at level 10, x name, c at level 100, k at level 200).

(** ** Enumerations imported by Image.js *)

Module ImageState.

(** Modelled from the spec: [ImageState.js] is not among the sources;
    the specification lists the four states Idle, Loading, Loaded and
    Error. *)
Inductive t : Set := IDLE | LOADING | LOADED | ERROR.

Definition eqb (a b : t) : bool :=
  match a, b with
  | IDLE, IDLE | LOADING, LOADING | LOADED, LOADED | ERROR, ERROR => true
  | _, _ => false
  end.

End ImageState.

Module EventType.

(** Modelled from the spec: [events/EventType.js] is not among the
    sources; Image.js uses its members [ERROR] and [LOAD], the
    load-failure and load-success signals of the raster handle. *)
Inductive t : Set := ERROR | LOAD.

Definition eqb (a b : t) : bool :=
  match a, b with
  | ERROR, ERROR | LOAD, LOAD => true
  | _, _ => false
  end.

End EventType.

(** ** Raster handles and the listener registry *)

(** A raster handle ([HTMLCanvasElement|Image|HTMLVideoElement]) is an
    object with identity: a reference into the store of raster elements. *)
Definition Raster : Set := nat.

(** What the wrapper reads or writes on a raster element. *)
Record RasterData : Set := mkRasterData {
  height : float;
  crossOrigin : option string
}.

Record Dom : Set := mkDom {
  next : Raster;
  elements : Raster -> RasterData
}.

(** [new Image()]: a fresh element, [height] 0, no cross-origin policy. *)
Definition blank : RasterData := mkRasterData 0%float None.

Definition set_element (d : Dom) (r : Raster) (x : RasterData) : Dom :=
  mkDom (next d) (fun r' => if Nat.eqb r' r then x else elements d r').

Definition new_Image (d : Dom) : Raster * Dom :=
  (next d,
   mkDom (S (next d))
         (fun r' => if Nat.eqb r' (next d) then blank else elements d r')).

(** The two private methods of the wrapper that are registered as
    listeners. *)
Inductive Handler : Set := HandleImageError | HandleImageLoad.

Definition Handler_eqb (a b : Handler) : bool :=
  match a, b with
  | HandleImageError, HandleImageError
  | HandleImageLoad, HandleImageLoad => true
  | _, _ => false
  end.

(** [ol.EventsKey]: the listener object that [listenOnce] returns.  The
    [bindTo] field is always the one wrapper modelled here. *)
Record EventsKey : Set := mkKey {
  target : Raster;
  type : EventType.t;
  listener : Handler;
  callOnce : bool
}.

Definition same_listener (a b : EventsKey) : bool :=
  Nat.eqb (target a) (target b) && EventType.eqb (type a) (type b)
  && Handler_eqb (listener a) (listener b).

Definition on_event (r : Raster) (ty : EventType.t) (k : EventsKey) : bool :=
  Nat.eqb (target k) r && EventType.eqb (type k) ty.

(** Calls that leave the wrapper, in the order they are made. *)
Inductive Effect : Set :=
| AddEventListener (r : Raster) (ty : EventType.t)
| RemoveEventListener (r : Raster) (ty : EventType.t)
| Changed (s : ImageState.t)
| ImageLoadFunction (src : string).

(** ** The wrapper object *)

(** [ol.Extent]: the array [[minX, minY, maxX, maxY]]. *)
Record Extent : Set := mkExtent {
  minX : float; minY : float; maxX : float; maxY : float
}.

(** Modelled from the spec: [extent.js] is not among the sources; the
    specification calls [getHeight] the height-of-extent computation of
    a bounding box (minX, minY, maxX, maxY). *)
Definition getHeight (e : Extent) : float := PrimFloat.sub (maxY e) (minY e).

Record ImageWrapper : Set := mkImageWrapper {
  (* fields of ImageBase *)
  extent : Extent;
  resolution : option float;
  pixelRatio : float;
  state : ImageState.t;
  (* fields of ImageWrapper *)
  src_ : string;
  image_ : Raster;
  imageListenerKeys_ : option (list EventsKey)
}.

(** The wrapper together with the part of its environment it acts on:
    the raster elements, the listeners registered on them, and the log of
    outgoing calls.  The field [imageLoadFunction_] is a callback of the
    caller: invoking it is the effect [ImageLoadFunction]. *)
Record World : Set := mkWorld {
  self : ImageWrapper;
  dom : Dom;
  listeners : list EventsKey;
  log : list Effect
}.

Definition set_state (s : ImageState.t) (w : World) : World :=
  let o := self w in
  mkWorld (mkImageWrapper (extent o) (resolution o) (pixelRatio o) s
                          (src_ o) (image_ o) (imageListenerKeys_ o))
          (dom w) (listeners w) (log w).

Definition set_resolution (r : option float) (w : World) : World :=
  let o := self w in
  mkWorld (mkImageWrapper (extent o) r (pixelRatio o) (state o)
                          (src_ o) (image_ o) (imageListenerKeys_ o))
          (dom w) (listeners w) (log w).

Definition set_image_ (i : Raster) (w : World) : World :=
  let o := self w in
  mkWorld (mkImageWrapper (extent o) (resolution o) (pixelRatio o) (state o)
                          (src_ o) i (imageListenerKeys_ o))
          (dom w) (listeners w) (log w).

Definition set_imageListenerKeys_ (ks : option (list EventsKey)) (w : World)
  : World :=
  let o := self w in
  mkWorld (mkImageWrapper (extent o) (resolution o) (pixelRatio o) (state o)
                          (src_ o) (image_ o) ks)
          (dom w) (listeners w) (log w).

Definition emit (e : Effect) (w : World) : World :=
  mkWorld (self w) (dom w) (listeners w) (log w ++ [e]).

Definition set_listeners (l : list EventsKey) (w : World) : World :=
  mkWorld (self w) (dom w) l (log w).

Definition set_dom (d : Dom) (w : World) : World :=
  mkWorld (self w) d (listeners w) (log w).

(** ** events.js *)

(** Whether the listener of a key is (still) on its target. *)
Definition registered (k : EventsKey) (w : World) : bool :=
  existsb (same_listener k) (listeners w).

(** Modelled from the spec: [events.js] is not among the sources.
    [listenOnce] registers a one-shot listener on the target and returns
    its key. *)
Definition listenOnce (r : Raster) (ty : EventType.t) (h : Handler)
  (w : World) : EventsKey * World :=
  let k := mkKey r ty h true in
  (k, emit (AddEventListener r ty) (set_listeners (listeners w ++ [k]) w)).

(** Modelled from the spec: [events.js] is not among the sources.
    [unlistenByKey] deregisters the listener of a key; on a key whose
    listener is gone already it does nothing. *)
Definition unlistenByKey (k : EventsKey) (w : World) : World :=
  if registered k w then
    emit (RemoveEventListener (target k) (type k))
         (set_listeners
            (filter (fun k' => negb (same_listener k k')) (listeners w)) w)
  else w.

(** ** Image.js *)

(** Modelled from the spec: [ImageBase.js] is not among the sources;
    [changed] emits the "changed" notification, through which observers
    read the lifecycle state. *)
Definition changed (w : World) : World :=
  emit (Changed (state (self w))) w.

(** The constructor: [ImageBase.call(this, ...)], then the own fields. *)
Definition new_ImageWrapper (d : Dom) (extent : Extent)
  (resolution : option float) (pixelRatio : float) (src : string)
  (crossOrigin : option string) : World :=
  let (img, d1) := new_Image d in
  let d2 := match crossOrigin with
            | Some c =>
                set_element d1 img
                  (mkRasterData (height (elements d1 img)) (Some c))
            | None => d1
            end in
  mkWorld (mkImageWrapper extent resolution pixelRatio ImageState.IDLE
                          src img None)
          d2 [] [].

Definition getImage (w : World) : Raster := image_ (self w).

Definition unlistenImage_ (w : World) : option World :=
  match imageListenerKeys_ (self w) with
  | None => None (* null.forEach *)
  | Some ks =>
      Some (set_imageListenerKeys_ None
              (fold_left (fun w' k => unlistenByKey k w') ks w))
  end.

Definition handleImageError_ (w : World) : option World :=
  let w1 := set_state ImageState.ERROR w in
  let? w2 := unlistenImage_ w1 in
  Some (changed w2).

Definition handleImageLoad_ (w : World) : option World :=
  let w1 :=
    match resolution (self w) with
    | None =>
        set_resolution
          (Some (PrimFloat.div (getHeight (extent (self w)))
                               (height (elements (dom w) (image_ (self w))))))
          w
    | Some _ => w
    end in
  let w2 := set_state ImageState.LOADED w1 in
  let? w3 := unlistenImage_ w2 in
  Some (changed w3).

Definition load (w : World) : World :=
  if ImageState.eqb (state (self w)) ImageState.IDLE
     || ImageState.eqb (state (self w)) ImageState.ERROR
  then
    let w1 := set_state ImageState.LOADING w in
    let w2 := changed w1 in
    let (kE, w3) :=
      listenOnce (image_ (self w2)) EventType.ERROR HandleImageError w2 in
    let (kL, w4) :=
      listenOnce (image_ (self w3)) EventType.LOAD HandleImageLoad w3 in
    let w5 := set_imageListenerKeys_ (Some [kE; kL]) w4 in
    emit (ImageLoadFunction (src_ (self w5))) w5
  else w.

Definition setImage (image : Raster) (w : World) : World :=
  set_image_ image w.

(** ** The environment: callers and the browser *)

Definition call (h : Handler) (w : World) : option World :=
  match h with
  | HandleImageError => handleImageError_ w
  | HandleImageLoad => handleImageLoad_ w
  end.

(** Modelled from the spec: [events.js] is not among the sources.  The
    bound listener it hands to the DOM: a one-shot listener deregisters
    itself when it fires, and the handler runs. *)
Definition boundListener (k : EventsKey) (w : World) : option World :=
  call (listener k) (if callOnce k then unlistenByKey k w else w).

(** The raster [r] fires an event of type [ty]: every listener registered
    for it when the event fires, and still registered when its turn comes,
    runs, in the order of registration. *)
Fixpoint deliver (ks : list EventsKey) (w : World) : option World :=
  match ks with
  | [] => Some w
  | k :: ks' =>
      let? w' := (if registered k w then boundListener k w else Some w) in
      deliver ks' w'
  end.

Definition dispatchEvent (r : Raster) (ty : EventType.t) (w : World)
  : option World :=
  deliver (filter (on_event r ty) (listeners w)) w.

(** What can happen to a wrapper: a caller invokes one of its public
    methods, or a raster finishes decoding with pixel height [px] and
    fires "load", or fails and fires "error". *)
Inductive Action : Set :=
| CallLoad
| CallSetImage (image : Raster)
| RasterLoads (r : Raster) (px : float)
| RasterFails (r : Raster).

(** The browser sets the height of a raster it has decoded. *)
Definition decoded (r : Raster) (px : float) (w : World) : World :=
  set_dom (set_element (dom w) r
             (mkRasterData px (crossOrigin (elements (dom w) r)))) w.

Definition step (w : World) (a : Action) : option World :=
  match a with
  | CallLoad => Some (load w)
  | CallSetImage image => Some (setImage image w)
  | RasterLoads r px => dispatchEvent r EventType.LOAD (decoded r px w)
  | RasterFails r => dispatchEvent r EventType.ERROR w
  end.

Fixpoint run (acts : list Action) (w : World) : option World :=
  match acts with
  | [] => Some w
  | a :: acts' => let? w' := step w a in run acts' w'
  end.

(** ** Consistency of the wrapper with the listener registry *)

(** The pair of keys that [load] stores: one listener per completion
    signal, both on the raster that was current when [load] ran. *)
Definition keys_of (t : Raster) : list EventsKey :=
  [mkKey t EventType.ERROR HandleImageError true;
   mkKey t EventType.LOAD HandleImageLoad true].

Definition consistent (w : World) : Prop :=
  match state (self w) with
  | ImageState.LOADING =>
      exists t, imageListenerKeys_ (self w) = Some (keys_of t)
                /\ listeners w = keys_of t
  | _ => imageListenerKeys_ (self w) = None /\ listeners w = []
  end.

(** The transitions of the lifecycle machine that the specification
    allows. *)
Definition transition (s s' : ImageState.t) : bool :=
  match s, s' with
  | ImageState.IDLE, ImageState.LOADING
  | ImageState.ERROR, ImageState.LOADING
  | ImageState.LOADING, ImageState.LOADED
  | ImageState.LOADING, ImageState.ERROR => true
  | _, _ => false
  end.

(** How often the configured load function has been invoked. *)
Fixpoint invocations (l : list Effect) : nat :=
  match l with
  | [] => 0
  | ImageLoadFunction _ :: l' => S (invocations l')
  | _ :: l' => invocations l'
  end.

(** The "changed" notifications of a log. *)
Fixpoint notified (l : list Effect) : list ImageState.t :=
  match l with
  | [] => []
  | Changed s :: l' => s :: notified l'
  | _ :: l' => notified l'
  end.

(** A step is quiet when the wrapper's lifecycle fields, the registry
    and the log are as before. *)
Definition quiet (w w' : World) : Prop :=
  state (self w') = state (self w)
  /\ imageListenerKeys_ (self w') = imageListenerKeys_ (self w)
  /\ resolution (self w') = resolution (self w)
  /\ listeners w' = listeners w
  /\ log w' = log w.

(** A step moves the machine when it makes an allowed transition and
    announces the new state, once, to the observers; the load function
    is invoked by the steps into [LOADING] and by no other. *)
Definition moves (w w' : World) : Prop :=
  transition (state (self w)) (state (self w')) = true
  /\ exists l, log w' = log w ++ l
               /\ notified l = [state (self w')]
               /\ invocations l
                  = (if ImageState.eqb (state (self w')) ImageState.LOADING
                     then 1 else 0).

(** A set resolution stays; an unset one is set by no step other than
    one into [LOADED]. *)
Definition keeps_resolution (w w' : World) : Prop :=
  (state (self w') = ImageState.LOADED
   \/ resolution (self w') = resolution (self w))
  /\ forall x, resolution (self w) = Some x -> resolution (self w') = Some x.

Definition sound (w w' : World) : Prop :=
  consistent w'
  /\ extent (self w') = extent (self w)
  /\ src_ (self w') = src_ (self w)
  /\ keeps_resolution w w'
  /\ (quiet w w' \/ moves w w').

(** What holds of every world of a wrapper constructed with extent [e],
    resolution [res] and source [src]. *)
Definition inv (e : Extent) (res : option float) (src : string) (w : World)
  : Prop :=
  consistent w
  /\ extent (self w) = e
  /\ src_ (self w) = src
  /\ (res = None -> state (self w) <> ImageState.LOADED ->
      resolution (self w) = None)
  /\ (forall x, res = Some x -> resolution (self w) = Some x).

(** A step into [LOADING] from [IDLE] or [ERROR]. *)
Definition enters (s s' : ImageState.t) : bool :=
  (ImageState.eqb s ImageState.IDLE || ImageState.eqb s ImageState.ERROR)
  && ImageState.eqb s' ImageState.LOADING.

(** The notified states [l], read after state [s], go along allowed
    transitions only. *)
Fixpoint chain (s : ImageState.t) (l : list ImageState.t) : bool :=
  match l with
  | [] => true
  | s' :: l' => transition s s' && chain s' l'
  end.

(** The notifications logged so far go along allowed transitions from
    [IDLE] and end in the current state. *)
Definition history_ok (w : World) : Prop :=
  chain ImageState.IDLE (notified (log w)) = true
  /\ last (notified (log w)) ImageState.IDLE = state (self w).

(** A wrapper to evaluate the operations on: resolution unset, extent
    height 100. *)
Definition sample_dom : Dom := mkDom 0 (fun _ => blank).

Definition sample_extent : Extent := mkExtent 0 0 200 100.

Definition sample : World :=
  new_ImageWrapper sample_dom sample_extent None 1 "tile.png" None.

(** The world a run ends in (the world it started in, had it thrown). *)
Definition after (acts : list Action) (w : World) : World :=
  match run acts w with
  | Some w' => w'
  | None => w
  end.

(** The sample wrapper after [load()] and the success of its raster with
    pixel height 50. *)
Definition sample_loaded : World :=
  after [CallLoad; RasterLoads 0 50] sample.

(** ** Measures of the effect log and shapes of a step *)

(** Listener registrations and removals made on the rasters. *)
Fixpoint added (l : list Effect) : nat :=
  match l with
  | [] => 0
  | AddEventListener _ _ :: l' => S (added l')
  | _ :: l' => added l'
  end.

Fixpoint removed (l : list Effect) : nat :=
  match l with
  | [] => 0
  | RemoveEventListener _ _ :: l' => S (removed l')
  | _ :: l' => removed l'
  end.

(** How often the state [s] has been notified. *)
Definition times (s : ImageState.t) (l : list Effect) : nat :=
  List.length (filter (ImageState.eqb s) (notified l)).

(** A call of the load function, if the effect is one, passes [src]. *)
Definition sourced (src : string) (ef : Effect) : Prop :=
  match ef with
  | ImageLoadFunction s => s = src
  | _ => True
  end.

(** The step started a Loading episode. *)
Definition started (w w' : World) : Prop :=
  (state (self w) = ImageState.IDLE \/ state (self w) = ImageState.ERROR)
  /\ listeners w = []
  /\ state (self w') = ImageState.LOADING
  /\ listeners w' = keys_of (image_ (self w))
  /\ log w' = log w ++ [Changed ImageState.LOADING;
                        AddEventListener (image_ (self w)) EventType.ERROR;
                        AddEventListener (image_ (self w)) EventType.LOAD;
                        ImageLoadFunction (src_ (self w))]
  /\ resolution (self w') = resolution (self w).

(** The step ended a Loading episode, in state [s]. *)
Definition completed (w w' : World) : Prop :=
  exists t s ty1 ty2,
    state (self w) = ImageState.LOADING
    /\ listeners w = keys_of t
    /\ (s = ImageState.LOADED \/ s = ImageState.ERROR)
    /\ state (self w') = s
    /\ listeners w' = []
    /\ log w' = log w ++ [RemoveEventListener t ty1;
                          RemoveEventListener t ty2; Changed s]
    /\ (s = ImageState.LOADED -> resolution (self w') <> None)
    /\ (s = ImageState.ERROR -> resolution (self w') = resolution (self w)).

(** What a step leaves alone in every case: the construction parameters,
    the raster handle unless the step is [setImage], and every
    cross-origin policy. *)
Definition framed (w : World) (a : Action) (w' : World) : Prop :=
  extent (self w') = extent (self w)
  /\ pixelRatio (self w') = pixelRatio (self w)
  /\ src_ (self w') = src_ (self w)
  /\ (forall r, crossOrigin (elements (dom w') r)
                = crossOrigin (elements (dom w) r))
  /\ match a with
     | CallSetImage h => image_ (self w') = h
     | _ => image_ (self w') = image_ (self w)
     end.

(** The handles that the calls of [setImage] among [acts] inject. *)
Fixpoint injected (acts : list Action) : list Raster :=
  match acts with
  | [] => []
  | CallSetImage h :: acts' => h :: injected acts'
  | _ :: acts' => injected acts'
  end.

(** The notifications and load-function calls of a log add up. *)
Definition episodes_counted (w : World) : Prop :=
  invocations (log w) = times ImageState.LOADING (log w)
  /\ times ImageState.LOADING (log w)
     = times ImageState.LOADED (log w) + times ImageState.ERROR (log w)
       + (if ImageState.eqb (state (self w)) ImageState.LOADING
          then 1 else 0)
  /\ times ImageState.LOADED (log w)
     = (if ImageState.eqb (state (self w)) ImageState.LOADED then 1 else 0)
  /\ times ImageState.IDLE (log w) = 0.

(** What the completion handlers and the listener bookkeeping leave
    alone. *)
Definition kept (w w' : World) : Prop :=
  extent (self w') = extent (self w)
  /\ pixelRatio (self w') = pixelRatio (self w)
  /\ src_ (self w') = src_ (self w)
  /\ image_ (self w') = image_ (self w)
  /\ dom w' = dom w.

(** ** style.components_old.ts *)

Module StyleBridge.

(** An [@Input] property holds [None] ([undefined]) until it is bound. *)
Definition Pair : Set := (float * float)%type.

Definition Color : Set := (float * float * float * float)%type.

(** The inputs of [StyleIconDirective], in the order of their
    declaration.  Its [onChanged] emitter is [subscribers] below. *)
Record StyleIconDirective : Set := mkDirective {
  anchor : option Pair;
  anchorXUnits : option string;
  anchorYUnits : option string;
  anchorOrigin : option string;
  color : option Color;
  crossOrigin : option string;
  img : option string;
  offset : option Pair;
  offsetOrigin : option string;
  opacity : option float;
  scale : option float;
  snapToPixel : option bool;
  rotateWithView : option bool;
  rotation : option float;
  size : option Pair;
  imgSize : option Pair;
  src : option string
}.

(** The object literal that [update] passes to [new style.Icon], in the
    order of the literal. *)
Record IconOptions : Set := mkIconOptions {
  icon_anchor : option Pair;
  icon_anchorOrigin : option string;
  icon_anchorXUnits : option string;
  icon_anchorYUnits : option string;
  icon_color : option Color;
  icon_crossOrigin : option string;
  icon_img : option string;
  icon_offset : option Pair;
  icon_offsetOrigin : option string;
  icon_opacity : option float;
  icon_scale : option float;
  icon_snapToPixel : option bool;
  icon_rotateWithView : option bool;
  icon_rotation : option float;
  icon_size : option Pair;
  icon_imgSize : option Pair;
  icon_src : option string
}.

(** [new style.Icon(options)] and [new style.Style({image: icon})]: each
    [new] yields an object of its own, named by an allocation number. *)
Record Icon : Set := mkIcon { icon_ref : nat; icon_options : IconOptions }.

Record Style : Set := mkStyle { style_ref : nat; image : Icon }.

(** The one callback the component subscribes: [() => this.update()]. *)
Inductive Callback : Set := CallUpdate.

(** Calls that leave the component, in the order they are made. *)
Inductive Call : Set :=
| ConsoleLog (msg : string)
| SetStyle (s : Style)
| Subscribe (subscription : nat)
| Unsubscribe (subscription : nat).

(** The component, its content child and the child's emitter. *)
Record World : Set := mkWorld {
  iconStyleDirective : StyleIconDirective;
  subscribers : list (nat * Callback);
  childSubscription : option nat;
  allocated : nat;
  calls : list Call
}.

(** [constructor(@Host() feature)] *)
Definition new_StyleComponent (child : StyleIconDirective) : World :=
  mkWorld child [] None 0 [ConsoleLog "instancing aol-style"].

Definition update (w : World) : World :=
  let c := iconStyleDirective w in
  let icon :=
    mkIcon (allocated w)
      (mkIconOptions (anchor c) (anchorOrigin c) (anchorXUnits c)
         (anchorYUnits c) (color c) (crossOrigin c) (img c) (offset c)
         (offsetOrigin c) (opacity c) (scale c) (snapToPixel c)
         (rotateWithView c) (rotation c) (size c) (imgSize c) (src c)) in
  let style := mkStyle (S (allocated w)) icon in
  mkWorld c (subscribers w) (childSubscription w) (S (S (allocated w)))
          (calls w ++ [SetStyle style]).

(** [onChanged.subscribe(callback)]: the subscription it returns. *)
Definition subscribe (cb : Callback) (w : World) : nat * World :=
  let id := allocated w in
  (id,
   mkWorld (iconStyleDirective w) (subscribers w ++ [(id, cb)])
           (childSubscription w) (S id) (calls w ++ [Subscribe id])).

Definition unsubscribe (id : nat) (w : World) : World :=
  mkWorld (iconStyleDirective w)
          (filter (fun s => negb (Nat.eqb (fst s) id)) (subscribers w))
          (childSubscription w) (allocated w) (calls w ++ [Unsubscribe id]).

Definition ngAfterContentInit (w : World) : World :=
  let w1 := update w in
  let (id, w2) := subscribe CallUpdate w1 in
  mkWorld (iconStyleDirective w2) (subscribers w2) (Some id) (allocated w2)
          (calls w2).

Definition invoke (cb : Callback) (w : World) : World :=
  match cb with
  | CallUpdate => update w
  end.

(** [onChanged.emit(value)]: the subscribers run, in order, at once. *)
Definition emit (w : World) : World :=
  fold_left (fun w' s => invoke (snd s) w') (subscribers w) w.

(** [StyleIconDirective.ngOnChanges]: [this.onChanged.emit(this.src)]. *)
Definition ngOnChanges (w : World) : World := emit w.

Definition ngOnDestroy (w : World) : option World :=
  match childSubscription w with
  | None => None (* undefined.unsubscribe *)
  | Some id => Some (unsubscribe id w)
  end.

(** The styles the host feature has been given. *)
Fixpoint pushed (l : list Call) : list Style :=
  match l with
  | [] => []
  | SetStyle s :: l' => s :: pushed l'
  | _ :: l' => pushed l'
  end.

End StyleBridge.

(** ** The bridge under input changes *)

(** Angular writes the bound inputs of the child directive, then calls
    its [ngOnChanges]. *)
Definition bindInputs (c : StyleBridge.StyleIconDirective)
  (w : StyleBridge.World) : StyleBridge.World :=
  StyleBridge.ngOnChanges
    (StyleBridge.mkWorld c (StyleBridge.subscribers w)
       (StyleBridge.childSubscription w) (StyleBridge.allocated w)
       (StyleBridge.calls w)).

Definition bindAll (cs : list StyleBridge.StyleIconDirective)
  (w : StyleBridge.World) : StyleBridge.World :=
  fold_left (fun w' c => bindInputs c w') cs w.

(** Every option of the style's icon is the input of the same name. *)
Definition mirrors (s : StyleBridge.Style)
  (c : StyleBridge.StyleIconDirective) : Prop :=
  let o := StyleBridge.icon_options (StyleBridge.image s) in
  StyleBridge.icon_anchor o = StyleBridge.anchor c
  /\ StyleBridge.icon_anchorXUnits o = StyleBridge.anchorXUnits c
  /\ StyleBridge.icon_anchorYUnits o = StyleBridge.anchorYUnits c
  /\ StyleBridge.icon_anchorOrigin o = StyleBridge.anchorOrigin c
  /\ StyleBridge.icon_color o = StyleBridge.color c
  /\ StyleBridge.icon_crossOrigin o = StyleBridge.crossOrigin c
  /\ StyleBridge.icon_img o = StyleBridge.img c
  /\ StyleBridge.icon_offset o = StyleBridge.offset c
  /\ StyleBridge.icon_offsetOrigin o = StyleBridge.offsetOrigin c
  /\ StyleBridge.icon_opacity o = StyleBridge.opacity c
  /\ StyleBridge.icon_scale o = StyleBridge.scale c
  /\ StyleBridge.icon_snapToPixel o = StyleBridge.snapToPixel c
  /\ StyleBridge.icon_rotateWithView o = StyleBridge.rotateWithView c
  /\ StyleBridge.icon_rotation o = StyleBridge.rotation c
  /\ StyleBridge.icon_size o = StyleBridge.size c
  /\ StyleBridge.icon_imgSize o = StyleBridge.imgSize c
  /\ StyleBridge.icon_src o = StyleBridge.src c.

(** The component is subscribed to its child, once, and the host's latest
    style shows the child's current inputs. *)
Definition in_sync (w : StyleBridge.World) : Prop :=
  StyleBridge.subscribers w = [(2, StyleBridge.CallUpdate)]
  /\ StyleBridge.childSubscription w = Some 2
  /\ exists pre s,
       StyleBridge.pushed (StyleBridge.calls w) = pre ++ [s]
       /\ mirrors s (StyleBridge.iconStyleDirective w).

(** The icon and style objects of the styles given to the host, by
    allocation number. *)
Definition objects (l : list StyleBridge.Style) : list nat :=
  flat_map (fun s => [StyleBridge.icon_ref (StyleBridge.image s);
                      StyleBridge.style_ref s]) l.

(** No object has been given to the host twice, and all were allocated. *)
Definition fresh_objects (w : StyleBridge.World) : Prop :=
  NoDup (objects (StyleBridge.pushed (StyleBridge.calls w)))
  /\ Forall (fun n => n < StyleBridge.allocated w)
            (objects (StyleBridge.pushed (StyleBridge.calls w))).

(** A sample child: an icon source and an opacity bound, the rest not. *)
Definition sample_child : StyleBridge.StyleIconDirective :=
  StyleBridge.mkDirective None None None None None None None None None
    (Some 1%float) None None None None None None (Some "pin.png"%string).

(** * Properties *)

Ltac open_world w :=
  let o := fresh "o" in
  destruct w as [o ? ? ?]; destruct o; simpl in *.

(** Evaluate the model's operations on a world whose shape is known;
    the only test that does not compute is a raster compared with
    itself. *)
Ltac crunch :=
  repeat (progress
            (unfold dispatchEvent, on_event, registered, boundListener, call,
               handleImageLoad_, handleImageError_, unlistenImage_,
               unlistenByKey, same_listener, changed, emit, set_listeners,
               set_state, set_resolution, set_imageListenerKeys_, keys_of,
               registered, bind;
             simpl; rewrite ?Nat.eqb_refl; simpl)).

Section Lifecycle.

Variables (d : Dom) (e : Extent) (res : option float) (pr : float)
          (src : string) (co : option string).

Local Abbreviation init := (new_ImageWrapper d e res pr src co).

Lemma init_consistent : consistent init.
Proof. unfold new_ImageWrapper, consistent; simpl. auto. Qed.

Lemma completes_load (w : World) (t : Raster) :
  imageListenerKeys_ (self w) = Some (keys_of t) ->
  listeners w = keys_of t ->
  exists w',
    dispatchEvent t EventType.LOAD w = Some w'
    /\ state (self w') = ImageState.LOADED
    /\ imageListenerKeys_ (self w') = None
    /\ listeners w' = []
    /\ log w' = log w ++ [RemoveEventListener t EventType.LOAD;
                          RemoveEventListener t EventType.ERROR;
                          Changed ImageState.LOADED]
    /\ resolution (self w')
       = match resolution (self w) with
         | None => Some (PrimFloat.div (getHeight (extent (self w)))
                           (height (elements (dom w) (image_ (self w)))))
         | Some r => Some r
         end
    /\ image_ (self w') = image_ (self w)
    /\ extent (self w') = extent (self w)
    /\ src_ (self w') = src_ (self w)
    /\ dom w' = dom w.
Proof.
  intros Hk Hl. open_world w. subst.
  destruct resolution0; crunch; eexists; (split; [reflexivity|]);
    simpl; rewrite <- ?app_assoc; repeat split.
Qed.

Lemma completes_error (w : World) (t : Raster) :
  imageListenerKeys_ (self w) = Some (keys_of t) ->
  listeners w = keys_of t ->
  exists w',
    dispatchEvent t EventType.ERROR w = Some w'
    /\ state (self w') = ImageState.ERROR
    /\ imageListenerKeys_ (self w') = None
    /\ listeners w' = []
    /\ log w' = log w ++ [RemoveEventListener t EventType.ERROR;
                          RemoveEventListener t EventType.LOAD;
                          Changed ImageState.ERROR]
    /\ resolution (self w') = resolution (self w)
    /\ image_ (self w') = image_ (self w)
    /\ extent (self w') = extent (self w)
    /\ src_ (self w') = src_ (self w)
    /\ dom w' = dom w.
Proof.
  intros Hk Hl. open_world w. subst.
  crunch; eexists; (split; [reflexivity|]);
    simpl; rewrite <- ?app_assoc; repeat split.
Qed.

(** An event on a raster that carries no listener for it reaches
    nobody. *)
Lemma unheard (w : World) (r : Raster) (ty : EventType.t) :
  filter (on_event r ty) (listeners w) = [] ->
  dispatchEvent r ty w = Some w.
Proof. unfold dispatchEvent. intros ->. reflexivity. Qed.

Lemma other_raster (t r : Raster) (ty : EventType.t) :
  t <> r -> filter (on_event r ty) (keys_of t) = [].
Proof.
  intros Hne. unfold keys_of, on_event. simpl.
  destruct (Nat.eqb_spec t r); [contradiction | reflexivity].
Qed.

Lemma load_starts (w : World) :
  state (self w) = ImageState.IDLE \/ state (self w) = ImageState.ERROR ->
  listeners w = [] ->
  state (self (load w)) = ImageState.LOADING
  /\ imageListenerKeys_ (self (load w)) = Some (keys_of (image_ (self w)))
  /\ listeners (load w) = keys_of (image_ (self w))
  /\ log (load w)
     = log w ++ [Changed ImageState.LOADING;
                 AddEventListener (image_ (self w)) EventType.ERROR;
                 AddEventListener (image_ (self w)) EventType.LOAD;
                 ImageLoadFunction (src_ (self w))]
  /\ resolution (self (load w)) = resolution (self w)
  /\ image_ (self (load w)) = image_ (self w)
  /\ extent (self (load w)) = extent (self w)
  /\ src_ (self (load w)) = src_ (self w)
  /\ dom (load w) = dom w.
Proof.
  intros Hs Hl. open_world w. subst. unfold load. simpl.
  destruct Hs; subst; simpl; rewrite <- ?app_assoc; simpl; repeat split.
Qed.

Lemma load_idles (w : World) :
  state (self w) = ImageState.LOADING \/ state (self w) = ImageState.LOADED ->
  load w = w.
Proof. intros [H | H]; unfold load; rewrite H; reflexivity. Qed.

Lemma sound_refl (w : World) : consistent w -> sound w w.
Proof. intros Hc. unfold sound, keeps_resolution, quiet. tauto. Qed.

Lemma sound_setImage (w : World) (image : Raster) :
  consistent w -> sound w (setImage image w).
Proof.
  intros Hc. unfold sound, keeps_resolution, quiet, consistent in *.
  open_world w. tauto.
Qed.

Lemma sound_decoded (w : World) (r : Raster) (px : float) :
  consistent w -> sound w (decoded r px w).
Proof.
  intros Hc. unfold sound, keeps_resolution, quiet, consistent in *.
  open_world w. tauto.
Qed.

Lemma sound_load (w : World) : consistent w -> sound w (load w).
Proof.
  intros Hc.
  destruct (state (self w)) eqn:Hs;
    try (rewrite load_idles by auto; apply sound_refl, Hc);
    unfold consistent in Hc; rewrite Hs in Hc; destruct Hc as [Hk Hl];
    (assert (Hi : state (self w) = ImageState.IDLE
                  \/ state (self w) = ImageState.ERROR) by auto);
    destruct (load_starts w Hi Hl)
      as (S1 & S2 & S3 & S4 & S5 & S6 & S7 & S8 & S9);
    unfold sound, keeps_resolution, consistent, moves; rewrite S1, S5, Hs;
    (split; [eauto | split; [assumption | split; [assumption | split]]]);
    [ tauto | right | tauto | right ];
    (split; [reflexivity | eexists; split; [eassumption | split; reflexivity]]).
Qed.

Lemma sound_completion (w w' : World) (s : ImageState.t) (l : list Effect) :
  state (self w) = ImageState.LOADING ->
  (s = ImageState.LOADED \/ s = ImageState.ERROR) ->
  state (self w') = s ->
  imageListenerKeys_ (self w') = None ->
  listeners w' = [] ->
  log w' = log w ++ l ->
  notified l = [s] ->
  invocations l = 0 ->
  extent (self w') = extent (self w) ->
  src_ (self w') = src_ (self w) ->
  (s = ImageState.LOADED \/ resolution (self w') = resolution (self w)) ->
  (forall x, resolution (self w) = Some x -> resolution (self w') = Some x) ->
  sound w w'.
Proof.
  intros Hs Hcase S1 S2 S3 S4 Hn Hi S7 S8 Hr1 Hr2.
  unfold sound, keeps_resolution, consistent, moves. rewrite S1, Hs.
  split; [destruct Hcase; subst s; auto|].
  split; [assumption|]. split; [assumption|].
  split; [split; assumption|]. right.
  split; [destruct Hcase; subst s; reflexivity|].
  exists l. split; [assumption|]. split; [assumption|].
  rewrite Hi. destruct Hcase; subst s; reflexivity.
Qed.

Lemma step_consistent (w : World) (a : Action) :
  consistent w -> exists w', step w a = Some w' /\ sound w w'.
Proof.
  intros Hc.
  destruct a as [ | image | r px | r ]; simpl.
  - (* load() *)
    eexists; split; [reflexivity | apply sound_load, Hc].
  - (* setImage(image) *)
    eexists; split; [reflexivity | apply sound_setImage, Hc].
  - (* the raster r fires "load" *)
    assert (Hq : filter (on_event r EventType.LOAD) (listeners w) = [] ->
                 exists w', dispatchEvent r EventType.LOAD (decoded r px w)
                            = Some w' /\ sound w w').
    { intros Hf. rewrite unheard by exact Hf.
      eexists; split; [reflexivity | apply sound_decoded, Hc]. }
    unfold consistent in Hc.
    destruct (state (self w)) eqn:Hs;
      try (destruct Hc as [Hk Hl]; apply Hq; rewrite Hl; reflexivity).
    destruct Hc as (t & Hk & Hl).
    destruct (Nat.eq_dec t r) as [-> | Hne];
      [ | apply Hq; rewrite Hl; apply other_raster, Hne ].
    destruct (@completes_load (decoded r px w) r Hk Hl)
      as (w' & S0 & S1 & S2 & S3 & S4 & S5 & S6 & S7 & S8 & S9).
    set (l0 := [RemoveEventListener r EventType.LOAD;
                RemoveEventListener r EventType.ERROR;
                Changed ImageState.LOADED]) in *.
    exists w'. split; [exact S0|].
    apply sound_completion with (s := ImageState.LOADED) (l := l0);
      auto.
    intros x Hx. rewrite S5. simpl. rewrite Hx. reflexivity.
  - (* the raster r fires "error" *)
    assert (Hq : filter (on_event r EventType.ERROR) (listeners w) = [] ->
                 exists w', dispatchEvent r EventType.ERROR w = Some w'
                            /\ sound w w').
    { intros Hf. rewrite unheard by exact Hf.
      eexists; split; [reflexivity | apply sound_refl, Hc]. }
    unfold consistent in Hc.
    destruct (state (self w)) eqn:Hs;
      try (destruct Hc as [Hk Hl]; apply Hq; rewrite Hl; reflexivity).
    destruct Hc as (t & Hk & Hl).
    destruct (Nat.eq_dec t r) as [-> | Hne];
      [ | apply Hq; rewrite Hl; apply other_raster, Hne ].
    destruct (@completes_error w r Hk Hl)
      as (w' & S0 & S1 & S2 & S3 & S4 & S5 & S6 & S7 & S8 & S9).
    set (l0 := [RemoveEventListener r EventType.ERROR;
                RemoveEventListener r EventType.LOAD;
                Changed ImageState.ERROR]) in *.
    exists w'. split; [exact S0|].
    apply sound_completion with (s := ImageState.ERROR) (l := l0);
      auto.
    intros x Hx. rewrite S5. exact Hx.
Qed.

Local Abbreviation inv := (inv e res src).

Lemma init_inv : inv init.
Proof.
  unfold inv. split; [apply init_consistent|].
  unfold new_ImageWrapper; simpl. auto.
Qed.

Lemma left_loaded (w w' : World) :
  state (self w) = ImageState.LOADED -> quiet w w' \/ moves w w' ->
  state (self w') = ImageState.LOADED.
Proof.
  intros Hs [(Q & _) | (T & _)]; [congruence|].
  rewrite Hs in T. discriminate.
Qed.

Lemma step_inv (w : World) (a : Action) :
  inv w -> exists w', step w a = Some w' /\ sound w w' /\ inv w'.
Proof.
  intros (Hc & He & Hsrc & Hnone & Hsome).
  destruct (step_consistent w a Hc) as (w' & Hstep & Hsound).
  exists w'. split; [assumption|]. split; [assumption|].
  destruct Hsound as (Hc' & He' & Hsrc' & ([Hl | Hr] & Hkeep) & Hqm);
    (split; [assumption|]); (split; [congruence|]); (split; [congruence|]);
    (split; [|intros x Hx; apply Hkeep, Hsome, Hx]); intros Hres Hs'.
  - contradiction.
  - rewrite Hr. apply Hnone; [assumption|]. intros Hs.
    apply Hs'. eapply left_loaded; eassumption.
Qed.

Lemma run_inv (acts : list Action) :
  forall w, inv w -> exists w', run acts w = Some w' /\ inv w'.
Proof.
  induction acts as [ | a acts IH]; intros w Hw; simpl.
  - exists w. auto.
  - destruct (step_inv w a Hw) as (w1 & -> & _ & Hw1). simpl.
    apply IH, Hw1.
Qed.

Lemma reach_inv (acts : list Action) (w : World) :
  run acts init = Some w -> inv w.
Proof.
  intros Hrun. destruct (run_inv acts _ init_inv) as (w' & Hrun' & Hw').
  congruence.
Qed.

Lemma invocations_app (l l' : list Effect) :
  invocations (l ++ l') = invocations l + invocations l'.
Proof.
  induction l as [ | x l IH]; simpl; [reflexivity|].
  destruct x; simpl; rewrite IH; reflexivity.
Qed.

Lemma notified_app (l l' : list Effect) :
  notified (l ++ l') = notified l ++ notified l'.
Proof.
  induction l as [ | x l IH]; simpl; [reflexivity|].
  destruct x; simpl; rewrite IH; reflexivity.
Qed.

Lemma loading_keys (w : World) :
  consistent w -> state (self w) = ImageState.LOADING ->
  exists t, imageListenerKeys_ (self w) = Some (keys_of t)
            /\ listeners w = keys_of t.
Proof. unfold consistent. intros Hc Hs. rewrite Hs in Hc. exact Hc. Qed.

Lemma enters_transition (s s' : ImageState.t) :
  transition s s' = true ->
  (if ImageState.eqb s' ImageState.LOADING then 1 else 0)
  = (if enters s s' then 1 else 0).
Proof. destruct s, s'; simpl; intros H; try discriminate; reflexivity. Qed.

Lemma enters_irrefl (s : ImageState.t) : enters s s = false.
Proof. destruct s; reflexivity. Qed.

(** C1. Calling [load()] while the state is Loading or Loaded is a no-op:
    the lifecycle state, the owned raster handle and the registered
    listeners are unchanged, and the log gains nothing, so no "changed"
    notification is emitted by the call. *)
Theorem load_noop_while_loading_or_loaded (w : World) :
  state (self w) = ImageState.LOADING \/ state (self w) = ImageState.LOADED ->
  load w = w
  /\ state (self (load w)) = state (self w)
  /\ getImage (load w) = getImage w
  /\ imageListenerKeys_ (self (load w)) = imageListenerKeys_ (self w)
  /\ listeners (load w) = listeners w
  /\ log (load w) = log w
  /\ notified (log (load w)) = notified (log w).
Proof.
  intros Hs. assert (Heq : load w = w).
  { unfold load. destruct Hs as [-> | ->]; reflexivity. }
  rewrite Heq. repeat split.
Qed.

(** C2. Along every sequence of [load()] calls, [setImage] calls and
    completion events on a constructed wrapper, a step invokes the
    configured load function once if it takes the state from Idle or
    Error into Loading, and not at all otherwise; no step taken while the
    state is Loading or Loaded invokes it; and two consecutive [load()]
    calls from Idle or Error, with no completion in between, invoke it
    exactly once. *)
Theorem load_function_once_per_entry (acts : list Action) (w : World) :
  run acts init = Some w ->
  (forall a w', step w a = Some w' ->
     invocations (log w')
     = invocations (log w)
       + (if enters (state (self w)) (state (self w')) then 1 else 0))
  /\ (state (self w) = ImageState.LOADING
      \/ state (self w) = ImageState.LOADED ->
      forall a w', step w a = Some w' ->
        invocations (log w') = invocations (log w))
  /\ (state (self w) = ImageState.IDLE \/ state (self w) = ImageState.ERROR ->
      invocations (log (load w)) = S (invocations (log w))
      /\ invocations (log (load (load w))) = S (invocations (log w))).
Proof.
  intros Hrun. pose proof (reach_inv acts w Hrun) as Hinv.
  assert (Hstep : forall a w', step w a = Some w' ->
            invocations (log w')
            = invocations (log w)
              + (if enters (state (self w)) (state (self w')) then 1 else 0)).
  { intros a w' Hs. destruct (step_inv w a Hinv) as (w1 & Hs1 & Hsound & _).
    assert (w1 = w') by congruence. subst w1.
    destruct Hsound as (_ & _ & _ & _ & [Q | M]).
    - destruct Q as (Qs & _ & _ & _ & Ql).
      rewrite Ql, Qs, enters_irrefl. lia.
    - destruct M as (T & l & Hl & _ & Hi).
      rewrite Hl, invocations_app, Hi. f_equal.
      apply enters_transition, T. }
  split; [exact Hstep|]. split.
  - intros Hs a w' Hw'. rewrite (Hstep a w' Hw').
    destruct Hs as [-> | ->]; simpl; lia.
  - intros Hs. destruct Hinv as (Hc & _).
    assert (Hl : listeners w = []).
    { unfold consistent in Hc.
      destruct Hs as [Hs | Hs]; rewrite Hs in Hc; tauto. }
    destruct (load_starts w Hs Hl) as (S1 & _ & _ & S4 & _).
    rewrite (load_idles (load w)) by (left; exact S1).
    rewrite S4, invocations_app. simpl. lia.
Qed.

(** C3. In every Loading episode of a constructed wrapper both listeners
    sit on one raster; when that raster fires the success signal the state
    becomes Loaded, when it fires the failure signal the state becomes
    Error, and in both cases the log gains the removal of both listeners
    first and the "changed" notification last, with no listener left. *)
Theorem completion_deregisters_before_changed (acts : list Action) (w : World) :
  run acts init = Some w ->
  state (self w) = ImageState.LOADING ->
  exists t,
    listeners w = keys_of t
    /\ (forall px, exists w',
          step w (RasterLoads t px) = Some w'
          /\ state (self w') = ImageState.LOADED
          /\ imageListenerKeys_ (self w') = None
          /\ listeners w' = []
          /\ log w' = log w ++ [RemoveEventListener t EventType.LOAD;
                                RemoveEventListener t EventType.ERROR;
                                Changed ImageState.LOADED])
    /\ (exists w',
          step w (RasterFails t) = Some w'
          /\ state (self w') = ImageState.ERROR
          /\ imageListenerKeys_ (self w') = None
          /\ listeners w' = []
          /\ log w' = log w ++ [RemoveEventListener t EventType.ERROR;
                                RemoveEventListener t EventType.LOAD;
                                Changed ImageState.ERROR]).
Proof.
  intros Hrun Hs. destruct (reach_inv acts w Hrun) as (Hc & _).
  destruct (loading_keys w Hc Hs) as (t & Hk & Hl).
  exists t. split; [exact Hl|]. split.
  - intros px.
    destruct (completes_load (decoded t px w) t Hk Hl)
      as (w' & S0 & S1 & S2 & S3 & S4 & _).
    exists w'. simpl. auto.
  - destruct (completes_error w t Hk Hl) as (w' & S0 & S1 & S2 & S3 & S4 & _).
    exists w'. simpl. auto.
Qed.

Lemma unlistenByKey_self (k : EventsKey) (w : World) :
  self (unlistenByKey k w) = self w.
Proof. unfold unlistenByKey. destruct (registered k w); reflexivity. Qed.

Lemma unlisten_all_self (ks : list EventsKey) :
  forall w, self (fold_left (fun w' k => unlistenByKey k w') ks w) = self w.
Proof.
  induction ks as [ | k ks IH]; intros w; simpl; [reflexivity|].
  rewrite IH. apply unlistenByKey_self.
Qed.

Lemma handler_keeps_resolution (w w' : World) (x : float) :
  resolution (self w) = Some x -> handleImageLoad_ w = Some w' ->
  resolution (self w') = Some x.
Proof.
  intros Hx. unfold handleImageLoad_. rewrite Hx.
  unfold unlistenImage_. simpl.
  destruct (imageListenerKeys_ (self w)); simpl; [|discriminate].
  intros [= <-]. simpl. rewrite unlisten_all_self. exact Hx.
Qed.

Lemma run_keeps_resolution (acts : list Action) :
  forall (w w' : World) (x : float),
    inv w -> resolution (self w) = Some x -> run acts w = Some w' ->
    resolution (self w') = Some x.
Proof.
  induction acts as [ | a acts IH]; intros w w' x Hw Hx; simpl.
  - intros [= <-]. exact Hx.
  - destruct (step_inv w a Hw) as (w1 & -> & Hsound & Hw1). simpl.
    apply (IH w1 w' x Hw1).
    destruct Hsound as (_ & _ & _ & (_ & Hkeep) & _). apply Hkeep, Hx.
Qed.

(** C4 (amended). For a wrapper constructed with the resolution unset:
    the step on which a raster's success signal first takes the state to
    Loaded sets the resolution to the extent's height divided by the
    pixel height of the raster handle the wrapper owns at that moment.
    That is the pixel height [px] the raster loaded with when the owned
    handle is the raster that fired; when [setImage] replaced the handle
    during the episode it is the height of the replacement, whatever [px]
    is.  A resolution that is set is overwritten by no later sequence of
    calls and signals. *)
Theorem resolution_inferred_once (acts : list Action) (w : World) :
  res = None ->
  run acts init = Some w ->
  (forall r px w',
     state (self w) <> ImageState.LOADED ->
     step w (RasterLoads r px) = Some w' ->
     state (self w') = ImageState.LOADED ->
     getImage w' = getImage w
     /\ resolution (self w')
        = Some (PrimFloat.div (getHeight e)
                              (height (elements (dom w') (getImage w'))))
     /\ (getImage w = r ->
         resolution (self w') = Some (PrimFloat.div (getHeight e) px))
     /\ (getImage w <> r ->
         resolution (self w')
         = Some (PrimFloat.div (getHeight e)
                               (height (elements (dom w) (getImage w))))))
  /\ (forall x acts' w',
        resolution (self w) = Some x -> run acts' w = Some w' ->
        resolution (self w') = Some x).
Proof.
  intros Hres Hrun. pose proof (reach_inv acts w Hrun) as Hinv.
  split.
  - intros r px w' Hnl Hstep Hs'.
    destruct Hinv as (Hc & He & _ & Hnone & _).
    pose proof (Hnone Hres Hnl) as Hunset.
    destruct (state (self w)) eqn:Hs; try contradiction;
      try (exfalso; unfold consistent in Hc; rewrite Hs in Hc;
           destruct Hc as [_ Hl]; simpl in Hstep;
           rewrite unheard in Hstep by (simpl; rewrite Hl; reflexivity);
           injection Hstep as <-; simpl in Hs'; congruence).
    destruct (loading_keys w Hc Hs) as (t & Hk & Hl).
    destruct (Nat.eq_dec t r) as [-> | Hne].
    + destruct (completes_load (decoded r px w) r Hk Hl)
        as (w1 & S0 & _ & _ & _ & _ & S5 & S6 & S7 & _ & S9).
      simpl in Hstep. assert (w1 = w') by congruence. subst w1.
      simpl in S5, S6, S7. rewrite Hunset, He in S5.
      unfold getImage. rewrite S9, S6.
      split; [reflexivity|]. split; [exact S5|]. split.
      * intros Hcur. rewrite S5. subst r.
        rewrite Nat.eqb_refl. reflexivity.
      * intros Hcur. rewrite S5.
        destruct (Nat.eqb_spec (image_ (self w)) r);
          [contradiction | reflexivity].
    + exfalso. simpl in Hstep.
      rewrite unheard in Hstep
        by (simpl; rewrite Hl; apply other_raster, Hne).
      injection Hstep as <-. simpl in Hs'. congruence.
  - intros x acts' w' Hx Hrun'.
    exact (run_keeps_resolution acts' w w' x Hinv Hx Hrun').
Qed.

(** C5 (amended). Error is not terminal: from Error a fresh [load()]
    re-enters Loading, and that [load()] followed by the success signal of
    the owned raster ends in Loaded.  Loaded is not re-entered: there
    [load()] changes nothing and the state stays Loaded. *)
Theorem error_is_retried_loaded_is_kept (acts : list Action) (w : World) :
  run acts init = Some w ->
  (state (self w) = ImageState.ERROR ->
   state (self (load w)) = ImageState.LOADING
   /\ forall px, exists w',
        run [CallLoad; RasterLoads (getImage w) px] w = Some w'
        /\ state (self w') = ImageState.LOADED)
  /\ (state (self w) = ImageState.LOADED ->
      load w = w /\ state (self (load w)) = ImageState.LOADED).
Proof.
  intros Hrun. destruct (reach_inv acts w Hrun) as (Hc & _). split.
  - intros Hs. assert (Hl : listeners w = []).
    { unfold consistent in Hc. rewrite Hs in Hc. tauto. }
    destruct (load_starts w (or_intror Hs) Hl) as (S1 & S2 & S3 & _).
    split; [exact S1|]. intros px.
    destruct (completes_load (decoded (getImage w) px (load w)) (getImage w)
                S2 S3) as (w' & S0 & S1' & _).
    exists w'. simpl. unfold getImage in *. rewrite S0. simpl. auto.
  - intros Hs. rewrite load_idles by auto. auto.
Qed.

Lemma last_default (l : list ImageState.t) (a s : ImageState.t) :
  last (a :: l) s = last l a.
Proof.
  revert a s. induction l as [ | b l IH]; intros a s; [reflexivity|].
  change (last (a :: b :: l) s) with (last (b :: l) s).
  rewrite (IH b s), (IH b a). reflexivity.
Qed.

Lemma chain_snoc (l : list ImageState.t) :
  forall s x, chain s (l ++ [x]) = chain s l && transition (last l s) x.
Proof.
  induction l as [ | a l IH]; intros s x.
  - simpl. rewrite andb_true_r. reflexivity.
  - change (chain s ((a :: l) ++ [x]))
      with (transition s a && chain a (l ++ [x])).
    rewrite IH, last_default. simpl. rewrite andb_assoc. reflexivity.
Qed.

Lemma history_step (w w' : World) :
  sound w w' -> history_ok w -> history_ok w'.
Proof.
  intros (_ & _ & _ & _ & [Q | M]) (Hch & Hlast); unfold history_ok.
  - destruct Q as (Qs & _ & _ & _ & Ql). rewrite Ql, Qs. auto.
  - destruct M as (T & l & Hl & Hn & _).
    rewrite Hl, notified_app, Hn, chain_snoc, last_last, Hch, Hlast, T.
    auto.
Qed.

Lemma history_run (acts : list Action) :
  forall w w', inv w -> history_ok w -> run acts w = Some w' -> history_ok w'.
Proof.
  induction acts as [ | a acts IH]; intros w w' Hw Hh; simpl.
  - intros [= <-]. exact Hh.
  - destruct (step_inv w a Hw) as (w1 & -> & Hsound & Hw1). simpl.
    apply (IH w1 w' Hw1). eapply history_step; eassumption.
Qed.

(** C6. In every execution of a constructed wrapper, the notified states
    go from Idle along the transitions Idle to Loading, Loading to Loaded,
    Loading to Error and Error to Loading only, ending in the current
    state; and each further step either leaves the state and the log as
    they are, or makes one of these transitions and notifies it. *)
Theorem transitions_follow_lifecycle (acts : list Action) (w : World) :
  run acts init = Some w ->
  history_ok w
  /\ forall a w', step w a = Some w' ->
       (state (self w') = state (self w) /\ log w' = log w)
       \/ (transition (state (self w)) (state (self w')) = true
           /\ exists l, log w' = log w ++ l
                        /\ notified l = [state (self w')]).
Proof.
  intros Hrun. pose proof (reach_inv acts w Hrun) as Hinv. split.
  - apply (history_run acts init w init_inv); [|exact Hrun].
    unfold history_ok, new_ImageWrapper. simpl. auto.
  - intros a w' Hstep.
    destruct (step_inv w a Hinv) as (w1 & Hs1 & Hsound & _).
    assert (w1 = w') by congruence. subst w1.
    destruct Hsound as (_ & _ & _ & _ & [Q | M]).
    + left. destruct Q as (Qs & _ & _ & _ & Ql). auto.
    + right. destruct M as (T & l & Hl & Hn & _). eauto.
Qed.

Lemma handler_error (w : World) (t : Raster) :
  imageListenerKeys_ (self w) = Some (keys_of t) ->
  listeners w = keys_of t ->
  exists w', handleImageError_ w = Some w'
             /\ state (self w') = ImageState.ERROR
             /\ listeners w' = []
             /\ log w' = log w ++ [RemoveEventListener t EventType.ERROR;
                                   RemoveEventListener t EventType.LOAD;
                                   Changed ImageState.ERROR].
Proof.
  intros Hk Hl. open_world w. subst.
  crunch; eexists; (split; [reflexivity|]);
    simpl; rewrite <- ?app_assoc; repeat split.
Qed.

Lemma fails_step (w : World) (r : Raster) :
  consistent w ->
  step w (RasterFails r) = Some w
  \/ (state (self w) = ImageState.LOADING
      /\ exists w', step w (RasterFails r) = Some w'
                    /\ state (self w') = ImageState.ERROR
                    /\ log w' = log w ++ [RemoveEventListener r EventType.ERROR;
                                          RemoveEventListener r EventType.LOAD;
                                          Changed ImageState.ERROR]
                    /\ resolution (self w') = resolution (self w)
                    /\ getImage w' = getImage w).
Proof.
  intros Hc. simpl.
  destruct (state (self w)) eqn:Hs;
    try (left; unfold consistent in Hc; rewrite Hs in Hc;
         destruct Hc as [_ Hl]; apply unheard; rewrite Hl; reflexivity).
  destruct (loading_keys w Hc Hs) as (t & Hk & Hl).
  destruct (Nat.eq_dec t r) as [-> | Hne].
  - right. split; [reflexivity|].
    destruct (completes_error w r Hk Hl)
      as (w' & S0 & S1 & _ & _ & S4 & S5 & S6 & _).
    exists w'. unfold getImage. auto.
  - left. apply unheard. rewrite Hl. apply other_raster, Hne.
Qed.

Lemma unlistened_raster (w : World) (r : Raster) :
  consistent w -> listeners w <> keys_of r ->
  filter (on_event r EventType.ERROR) (listeners w) = [].
Proof.
  unfold consistent. intros Hc Hne.
  destruct (state (self w));
    try (destruct Hc as [_ ->]; reflexivity).
  destruct Hc as (t & _ & Hl). rewrite Hl in *.
  apply other_raster. intros ->. apply Hne. reflexivity.
Qed.

(** C7. No sequence of [load()] calls, [setImage] calls and completion
    events on a constructed wrapper throws: every run returns a world.
    There, from Idle or Error, [load()] followed by the failure of the
    owned raster returns in state Error, having notified "changed" for
    Loading and then for Error and invoked the load function once; in a
    Loading episode the failure handler returns, and the failure signal
    of the listened raster returns in state Error, the log gaining the two
    listener removals and one "changed" notification and nothing else of
    the wrapper changing; a failure signal of any other raster returns
    and changes nothing. *)
Theorem failure_is_not_thrown (acts : list Action) :
  exists w,
    run acts init = Some w
    /\ (state (self w) = ImageState.IDLE
        \/ state (self w) = ImageState.ERROR ->
        exists w',
          run [CallLoad; RasterFails (getImage w)] w = Some w'
          /\ state (self w') = ImageState.ERROR
          /\ notified (log w')
             = notified (log w) ++ [ImageState.LOADING; ImageState.ERROR]
          /\ invocations (log w') = S (invocations (log w))
          /\ resolution (self w') = resolution (self w)
          /\ getImage w' = getImage w)
    /\ (state (self w) = ImageState.LOADING ->
        exists t,
          listeners w = keys_of t
          /\ (exists w',
                handleImageError_ w = Some w'
                /\ state (self w') = ImageState.ERROR
                /\ notified (log w')
                   = notified (log w) ++ [ImageState.ERROR])
          /\ exists w',
               step w (RasterFails t) = Some w'
               /\ state (self w') = ImageState.ERROR
               /\ log w' = log w ++ [RemoveEventListener t EventType.ERROR;
                                     RemoveEventListener t EventType.LOAD;
                                     Changed ImageState.ERROR]
               /\ resolution (self w') = resolution (self w)
               /\ getImage w' = getImage w
               /\ extent (self w') = extent (self w)
               /\ src_ (self w') = src_ (self w)
               /\ dom w' = dom w)
    /\ (forall r, listeners w <> keys_of r ->
                  step w (RasterFails r) = Some w).
Proof.
  destruct (run_inv acts init init_inv) as (w & Hrun & Hc & _).
  exists w. split; [exact Hrun|]. split; [|split].
  - intros Hs. assert (Hl : listeners w = []).
    { unfold consistent in Hc.
      destruct Hs as [Hs | Hs]; rewrite Hs in Hc; tauto. }
    destruct (load_starts w Hs Hl)
      as (S1 & S2 & S3 & S4 & S5 & S6 & _).
    destruct (completes_error (load w) (getImage w) S2 S3)
      as (w' & T0 & T1 & _ & _ & T4 & T5 & T6 & _).
    exists w'. simpl. unfold getImage in *. rewrite T0. simpl.
    split; [reflexivity|]. split; [exact T1|].
    rewrite T4, S4, !notified_app, !invocations_app. simpl.
    rewrite <- app_assoc. simpl.
    repeat split; [lia | congruence | congruence].
  - intros Hs. destruct (loading_keys w Hc Hs) as (t & Hk & Hl).
    exists t. split; [exact Hl|]. split.
    + destruct (handler_error w t Hk Hl) as (w' & H0 & H1 & _ & H3).
      exists w'. split; [exact H0|]. split; [exact H1|].
      rewrite H3, notified_app. reflexivity.
    + destruct (completes_error w t Hk Hl)
        as (w' & S0 & S1 & _ & _ & S4 & S5 & S6 & S7 & S8 & S9).
      exists w'. unfold getImage. simpl. auto 10.
  - intros r Hne. simpl. apply unheard.
    apply unlistened_raster; assumption.
Qed.

(** C8. In every state and for every raster handle [h], [setImage(h)]
    leaves the lifecycle state and every field other than the raster
    handle as they were, touches neither the rasters, the listeners nor
    the log, and [getImage()] right after it returns [h]. *)
Theorem setImage_only_replaces_handle (w : World) (h : Raster) :
  getImage (setImage h w) = h
  /\ state (self (setImage h w)) = state (self w)
  /\ extent (self (setImage h w)) = extent (self w)
  /\ resolution (self (setImage h w)) = resolution (self w)
  /\ pixelRatio (self (setImage h w)) = pixelRatio (self w)
  /\ src_ (self (setImage h w)) = src_ (self w)
  /\ imageListenerKeys_ (self (setImage h w)) = imageListenerKeys_ (self w)
  /\ dom (setImage h w) = dom w
  /\ listeners (setImage h w) = listeners w
  /\ log (setImage h w) = log w.
Proof. unfold setImage, set_image_, getImage. simpl. repeat split. Qed.

(** C9. In every world a constructed wrapper reaches through [load()]
    calls, [setImage] calls and completion events, the stored key list is
    non-null exactly when the state is Loading; and every further step
    returns: the completion handlers run only through their listeners, so
    [unlistenImage_] never meets a null key list. *)
Theorem listener_keys_iff_loading (acts : list Action) :
  exists w,
    run acts init = Some w
    /\ (imageListenerKeys_ (self w) <> None
        <-> state (self w) = ImageState.LOADING)
    /\ (listeners w <> [] <-> state (self w) = ImageState.LOADING)
    /\ forall a, exists w', step w a = Some w'.
Proof.
  destruct (run_inv acts init init_inv) as (w & Hrun & Hinv).
  exists w. split; [exact Hrun|].
  pose proof Hinv as (Hc & _). unfold consistent in Hc.
  split; [|split].
  - destruct (state (self w)); try destruct Hc as (t & -> & _);
      try destruct Hc as (-> & _); split; congruence.
  - destruct (state (self w)); try destruct Hc as (t & _ & ->);
      try destruct Hc as (_ & ->); unfold keys_of; split; congruence.
  - intros a. destruct (step_inv w a Hinv) as (w' & Hs & _). eauto.
Qed.

End Lifecycle.

(** ** The properties at the sample wrapper *)

(** [load()] on the sample wrapper, called once more while Loading. *)
Lemma load_noop_at_sample :
  state (self (load sample)) = ImageState.LOADING
  /\ load (load sample) = load sample
  /\ log (load (load sample)) = log (load sample).
Proof.
  split; [reflexivity|].
  destruct (load_noop_while_loading_or_loaded (load sample)
              (or_introl eq_refl)) as (H1 & _ & _ & _ & _ & H6 & _).
  split; assumption.
Defined.

(** Two [load()] calls in a row on the sample wrapper: one invocation. *)
Lemma load_function_at_sample :
  run [CallLoad] sample = Some (load sample)
  /\ invocations (log (load sample)) = 1
  /\ invocations (log (load (load sample))) = 1.
Proof.
  split; [reflexivity|].
  destruct (load_function_once_per_entry sample_dom sample_extent None 1
              "tile.png" None [] sample eq_refl) as (_ & _ & H3).
  exact (H3 (or_introl eq_refl)).
Defined.

(** The sample wrapper fails while Loading. *)
Lemma completion_at_sample :
  run [CallLoad] sample = Some (load sample)
  /\ state (self (load sample)) = ImageState.LOADING
  /\ exists t,
       listeners (load sample) = keys_of t
       /\ exists w',
            step (load sample) (RasterFails t) = Some w'
            /\ state (self w') = ImageState.ERROR
            /\ log w' = log (load sample)
                        ++ [RemoveEventListener t EventType.ERROR;
                            RemoveEventListener t EventType.LOAD;
                            Changed ImageState.ERROR].
Proof.
  split; [reflexivity|]. split; [reflexivity|].
  destruct (completion_deregisters_before_changed sample_dom sample_extent
              None 1 "tile.png" None [CallLoad] (load sample)
              eq_refl eq_refl)
    as (t & Hl & _ & (w' & H1 & H2 & _ & _ & H5)).
  exists t. split; [exact Hl|]. exists w'. auto.
Defined.

(** Extent height 100, pixel height 50: the resolution is 2, and stays. *)
Lemma resolution_at_sample :
  getHeight sample_extent = 100%float
  /\ step (load sample) (RasterLoads 0 50) = Some sample_loaded
  /\ state (self sample_loaded) = ImageState.LOADED
  /\ resolution (self sample_loaded) = Some 2%float
  /\ resolution (self (after [CallLoad; RasterLoads 0 10] sample_loaded))
     = Some 2%float.
Proof.
  assert (Hstep : step (load sample) (RasterLoads 0 50) = Some sample_loaded)
    by (vm_compute; reflexivity).
  assert (Hrun : run [CallLoad; RasterLoads 0 50] sample = Some sample_loaded)
    by (vm_compute; reflexivity).
  assert (Hlater : run [CallLoad; RasterLoads 0 10] sample_loaded
                   = Some (after [CallLoad; RasterLoads 0 10] sample_loaded))
    by (vm_compute; reflexivity).
  assert (Hs : state (self sample_loaded) = ImageState.LOADED)
    by (vm_compute; reflexivity).
  split; [reflexivity|]. split; [exact Hstep|]. split; [exact Hs|].
  destruct (resolution_inferred_once sample_dom sample_extent None 1
              "tile.png" None [CallLoad] (load sample) eq_refl eq_refl)
    as (H1 & _).
  destruct (H1 0 50%float sample_loaded ltac:(discriminate) Hstep Hs)
    as (_ & _ & H2 & _).
  pose proof (H2 eq_refl) as H3.
  split; [exact H3|].
  destruct (resolution_inferred_once sample_dom sample_extent None 1
              "tile.png" None [CallLoad; RasterLoads 0 50] sample_loaded
              eq_refl Hrun) as (_ & H4).
  exact (H4 2%float [CallLoad; RasterLoads 0 10] _ H3 Hlater).
Defined.

(** C4 as stated fails: the sample wrapper (extent height 100) is given
    raster 7, of height 0, while raster 0 loads; raster 0 then succeeds
    with pixel height 50, and the resolution is 100 / 0, not 100 / 50. *)
Lemma resolution_not_from_the_raster_that_fired :
  ~ (forall (acts : list Action) (w w' : World) (r : Raster) (px : float),
       run acts sample = Some w ->
       state (self w) <> ImageState.LOADED ->
       step w (RasterLoads r px) = Some w' ->
       state (self w') = ImageState.LOADED ->
       resolution (self w')
       = Some (PrimFloat.div (getHeight sample_extent) px)).
Proof.
  intros H.
  pose proof (H [CallLoad; CallSetImage 7] _ _ 0 50%float eq_refl
                ltac:(discriminate) eq_refl eq_refl) as H'.
  apply (f_equal (fun o => match o with
                           | Some x => PrimFloat.eqb x infinity
                           | None => false
                           end)) in H'.
  vm_compute in H'. discriminate H'.
Qed.

(** The fresh sample wrapper is loaded and its raster fails. *)
Lemma failure_at_sample :
  exists w',
    run [CallLoad; RasterFails 0] sample = Some w'
    /\ state (self w') = ImageState.ERROR
    /\ notified (log w') = [ImageState.LOADING; ImageState.ERROR]
    /\ invocations (log w') = 1.
Proof.
  destruct (failure_is_not_thrown sample_dom sample_extent None 1
              "tile.png" None []) as (w & Hrun & H2 & _).
  injection Hrun as <-.
  destruct (H2 (or_introl eq_refl)) as (w' & R0 & R1 & R2 & R3 & _).
  exists w'. auto.
Defined.

(** C5 as stated fails: after [load()] and the success signal the sample
    wrapper is Loaded, and a fresh [load()] does not re-enter Loading. *)
Lemma loaded_is_not_reentered :
  ~ (forall (acts : list Action) (w : World),
       run acts sample = Some w ->
       state (self w) = ImageState.LOADED
       \/ state (self w) = ImageState.ERROR ->
       state (self (load w)) = ImageState.LOADING).
Proof.
  intros H.
  pose proof (H [CallLoad; RasterLoads 0 50] _ eq_refl (or_introl eq_refl))
    as H'.
  discriminate H'.
Qed.

(** The sample wrapper fails, is loaded again and succeeds. *)
Lemma retry_at_sample :
  exists wE,
    run [CallLoad; RasterFails 0] sample = Some wE
    /\ state (self wE) = ImageState.ERROR
    /\ state (self (load wE)) = ImageState.LOADING
    /\ exists w',
         run [CallLoad; RasterLoads 0 50] wE = Some w'
         /\ state (self w') = ImageState.LOADED.
Proof.
  eexists. split; [reflexivity|]. split; [reflexivity|].
  destruct (error_is_retried_loaded_is_kept sample_dom sample_extent None 1
              "tile.png" None [CallLoad; RasterFails 0] _ eq_refl)
    as (H1 & _).
  destruct (H1 eq_refl) as (H2 & H3). split; [exact H2|]. exact (H3 50%float).
Defined.

(** The transitions of the sample wrapper once it is Loading. *)
Lemma transitions_at_sample :
  run [CallLoad] sample = Some (load sample)
  /\ history_ok (load sample)
  /\ forall a w', step (load sample) a = Some w' ->
       (state (self w') = state (self (load sample))
        /\ log w' = log (load sample))
       \/ (transition (state (self (load sample))) (state (self w')) = true
           /\ exists l, log w' = log (load sample) ++ l
                        /\ notified l = [state (self w')]).
Proof.
  split; [reflexivity|].
  exact (transitions_follow_lifecycle sample_dom sample_extent None 1
           "tile.png" None [CallLoad] (load sample) eq_refl).
Defined.

(** ** The style binding bridge *)

Section Bridge.

Import StyleBridge.

Variable child : StyleIconDirective.

Lemma pushed_app (l l' : list Call) : pushed (l ++ l') = pushed l ++ pushed l'.
Proof.
  induction l as [ | x l IH]; simpl; [reflexivity|].
  destruct x; simpl; rewrite ?IH; reflexivity.
Qed.

Lemma unheard_changes (n : nat) :
  Nat.iter n ngOnChanges (new_StyleComponent child) = new_StyleComponent child.
Proof.
  induction n as [ | n IH]; simpl; [reflexivity|]. rewrite IH. reflexivity.
Qed.

Lemma notifies_update (w : World) (id : nat) :
  subscribers w = [(id, CallUpdate)] -> ngOnChanges w = update w.
Proof. unfold ngOnChanges, emit. intros ->. reflexivity. Qed.

Lemma one_subscriber (k : nat) :
  let w :=
    Nat.iter k ngOnChanges (ngAfterContentInit (new_StyleComponent child)) in
  subscribers w = [(2, CallUpdate)]
  /\ List.length (pushed (calls w)) = 1 + k.
Proof.
  induction k as [ | k [IHs IHp]]; simpl; [split; reflexivity|].
  rewrite (notifies_update _ 2 IHs). split; [exact IHs|].
  unfold update at 1. simpl. rewrite pushed_app, length_app, IHp. simpl. lia.
Qed.

(** C10. [ngAfterContentInit] first pushes to the host, through
    [update()], one style built from objects allocated by that call, and
    only then subscribes to the child's change notification.  A host whose
    child notified changes before content initialisation has received no
    style; right after content initialisation it has received exactly
    one, also when no input ever changes; each later notification adds
    one. *)
Theorem content_init_pushes_style_then_subscribes :
  (forall w, exists s id,
     calls (ngAfterContentInit w) = calls w ++ [SetStyle s; Subscribe id]
     /\ calls (update w) = calls w ++ [SetStyle s]
     /\ allocated w <= icon_ref (image s) < style_ref s
     /\ style_ref s < id
     /\ icon_src (icon_options (image s)) = src (iconStyleDirective w)
     /\ subscribers (ngAfterContentInit w)
        = subscribers w ++ [(id, CallUpdate)]
     /\ childSubscription (ngAfterContentInit w) = Some id)
  /\ (forall n,
        pushed (calls (Nat.iter n ngOnChanges (new_StyleComponent child)))
        = [])
  /\ (forall n,
        List.length (pushed (calls (ngAfterContentInit
                  (Nat.iter n ngOnChanges (new_StyleComponent child))))) = 1)
  /\ (forall k,
        List.length (pushed (calls (Nat.iter k ngOnChanges
                  (ngAfterContentInit (new_StyleComponent child))))) = 1 + k).
Proof.
  split; [|split; [|split]].
  - intros w. do 2 eexists.
    unfold ngAfterContentInit, subscribe, update. simpl.
    rewrite <- app_assoc. simpl.
    split; [reflexivity|]. split; [reflexivity|]. simpl.
    repeat split; lia.
  - intros n. rewrite unheard_changes. reflexivity.
  - intros n. rewrite unheard_changes. reflexivity.
  - intros k. apply (one_subscriber k).
Qed.

End Bridge.

(** * Further properties of the image wrapper *)

Section Episodes.

Variables (d : Dom) (e : Extent) (res : option float) (pr : float)
          (src : string) (co : option string).

Local Abbreviation init := (new_ImageWrapper d e res pr src co).

Lemma unlisten_all_dom (ks : list EventsKey) :
  forall w, dom (fold_left (fun w' k => unlistenByKey k w') ks w) = dom w.
Proof.
  induction ks as [ | k ks IH]; intros w; simpl; [reflexivity|].
  rewrite IH. unfold unlistenByKey. destruct (registered k w); reflexivity.
Qed.

Lemma kept_trans (w1 w2 w3 : World) : kept w1 w2 -> kept w2 w3 -> kept w1 w3.
Proof. unfold kept. intuition congruence. Qed.

Lemma unlistenByKey_kept (k : EventsKey) (w : World) :
  kept w (unlistenByKey k w).
Proof.
  unfold kept, unlistenByKey. destruct (registered k w); simpl; auto.
Qed.

Lemma call_kept (h : Handler) (w w' : World) : call h w = Some w' -> kept w w'.
Proof.
  unfold kept. destruct h; simpl;
    unfold handleImageError_, handleImageLoad_, unlistenImage_;
    destruct (resolution (self w)); simpl;
    destruct (imageListenerKeys_ (self w)); simpl; try discriminate;
    intros [= <-]; simpl; rewrite unlisten_all_self, unlisten_all_dom;
    simpl; auto.
Qed.

Lemma deliver_kept (ks : list EventsKey) :
  forall w w', deliver ks w = Some w' -> kept w w'.
Proof.
  induction ks as [ | k ks IH]; intros w w'; simpl.
  - intros [= <-]. unfold kept. auto.
  - destruct (registered k w).
    + unfold boundListener.
      destruct (call (listener k) (if callOnce k then unlistenByKey k w else w))
        as [w1 | ] eqn:Hcall; simpl; [|discriminate].
      intros Hd. apply kept_trans with w1; [|apply IH, Hd].
      apply call_kept in Hcall. destruct (callOnce k); [|exact Hcall].
      eapply kept_trans; [apply unlistenByKey_kept | exact Hcall].
    + simpl. apply IH.
Qed.

(** Whatever the world, a step that returns leaves the construction
    parameters and the cross-origin policies alone. *)
Lemma step_framed (w : World) (a : Action) (w' : World) :
  step w a = Some w' -> framed w a w'.
Proof.
  destruct a as [ | h | r px | r]; simpl.
  - intros [= <-]. unfold framed, load.
    destruct (ImageState.eqb (state (self w)) ImageState.IDLE
              || ImageState.eqb (state (self w)) ImageState.ERROR);
      simpl; auto.
  - intros [= <-]. unfold framed. simpl. auto.
  - intros Hd. apply deliver_kept in Hd.
    destruct Hd as (K1 & K2 & K3 & K4 & K5). unfold framed.
    rewrite K1, K2, K3, K4, K5. simpl. repeat split.
    intros x. destruct (Nat.eqb_spec x r); [subst|]; reflexivity.
  - intros Hd. apply deliver_kept in Hd.
    destruct Hd as (K1 & K2 & K3 & K4 & K5). unfold framed.
    rewrite K1, K2, K3, K4, K5. auto.
Qed.

(** In a consistent world a step returns, and it is quiet, or starts a
    Loading episode, or ends one. *)
Lemma step_shape (w : World) (a : Action) :
  consistent w ->
  exists w', step w a = Some w' /\ consistent w'
             /\ (quiet w w' \/ started w w' \/ completed w w').
Proof.
  intros Hc.
  destruct (step_consistent w a Hc) as (w' & Hstep & Hc' & _).
  exists w'. split; [exact Hstep|]. split; [exact Hc'|].
  assert (Hquiet : forall v, quiet v v) by (unfold quiet; auto).
  unfold consistent in Hc.
  destruct a as [ | h | r px | r]; simpl in Hstep.
  - injection Hstep as <-.
    destruct (state (self w)) eqn:Hs;
      try (left; rewrite load_idles by auto; apply Hquiet);
      destruct Hc as [Hk Hl];
      (assert (Hi : state (self w) = ImageState.IDLE
                    \/ state (self w) = ImageState.ERROR) by auto);
      destruct (load_starts w Hi Hl) as (S1 & S2 & S3 & S4 & S5 & _);
      right; left; unfold started; auto 10.
  - injection Hstep as <-. left. unfold quiet. simpl. auto.
  - destruct (state (self w)) eqn:Hs;
      try (destruct Hc as [Hk Hl];
           rewrite unheard in Hstep by (simpl; rewrite Hl; reflexivity);
           injection Hstep as <-; left; unfold quiet; simpl; auto).
    destruct Hc as (t & Hk & Hl).
    destruct (Nat.eq_dec t r) as [-> | Hne].
    + destruct (completes_load (decoded r px w) r Hk Hl)
        as (w1 & S0 & S1 & S2 & S3 & S4 & S5 & _).
      assert (w1 = w') by congruence. subst w1.
      right; right. exists r, ImageState.LOADED, EventType.LOAD, EventType.ERROR.
      repeat split; auto; try discriminate.
      rewrite S5. destruct (resolution (self (decoded r px w))); discriminate.
    + rewrite unheard in Hstep
        by (simpl; rewrite Hl; apply other_raster, Hne).
      injection Hstep as <-. left. unfold quiet. simpl. auto.
  - destruct (state (self w)) eqn:Hs;
      try (destruct Hc as [Hk Hl];
           rewrite unheard in Hstep by (rewrite Hl; reflexivity);
           injection Hstep as <-; left; apply Hquiet).
    destruct Hc as (t & Hk & Hl).
    destruct (Nat.eq_dec t r) as [-> | Hne].
    + destruct (completes_error w r Hk Hl)
        as (w1 & S0 & S1 & S2 & S3 & S4 & S5 & _).
      assert (w1 = w') by congruence. subst w1.
      right; right. exists r, ImageState.ERROR, EventType.ERROR, EventType.LOAD.
      repeat split; auto; discriminate.
    + rewrite unheard in Hstep by (rewrite Hl; apply other_raster, Hne).
      injection Hstep as <-. left. apply Hquiet.
Qed.

(** The invariant rule: what holds of a consistent world and is kept by
    every step of either shape holds after every run from it. *)
Lemma invariant_from (P : World -> Prop) (acts : list Action) :
  (forall w a w', consistent w -> P w -> step w a = Some w' ->
                  framed w a w' ->
                  quiet w w' \/ started w w' \/ completed w w' -> P w') ->
  forall w, consistent w -> P w ->
            exists w', run acts w = Some w' /\ consistent w' /\ P w'.
Proof.
  intros Hstep.
  induction acts as [ | a acts IH]; intros w Hc Hp; simpl.
  - exists w. auto.
  - destruct (step_shape w a Hc) as (w1 & Hs & Hc1 & Hsh).
    rewrite Hs. simpl. apply IH; [exact Hc1|].
    apply (Hstep w a w1 Hc Hp Hs (step_framed w a w1 Hs) Hsh).
Qed.

Lemma invariant_rule (P : World -> Prop) :
  P init ->
  (forall w a w', consistent w -> P w -> step w a = Some w' ->
                  framed w a w' ->
                  quiet w w' \/ started w w' \/ completed w w' -> P w') ->
  forall acts, exists w, run acts init = Some w /\ consistent w /\ P w.
Proof.
  intros H0 Hstep acts.
  apply (invariant_from P acts Hstep); [apply init_consistent | exact H0].
Qed.

Lemma added_app (l l' : list Effect) : added (l ++ l') = added l + added l'.
Proof.
  induction l as [ | x l IH]; simpl; [reflexivity|].
  destruct x; simpl; rewrite IH; reflexivity.
Qed.

Lemma removed_app (l l' : list Effect) :
  removed (l ++ l') = removed l + removed l'.
Proof.
  induction l as [ | x l IH]; simpl; [reflexivity|].
  destruct x; simpl; rewrite IH; reflexivity.
Qed.

Lemma times_app (s : ImageState.t) (l l' : list Effect) :
  times s (l ++ l') = times s l + times s l'.
Proof.
  unfold times. rewrite notified_app, filter_app, length_app. reflexivity.
Qed.

(** X1. Loaded is final: from a Loaded world of a constructed wrapper,
    every sequence of calls and raster events returns, and leaves the
    state Loaded, the resolution and the log as they were, with no
    listener registered: no further notification, no further load. *)
Theorem loaded_is_final (acts0 acts : list Action) (w : World) :
  run acts0 init = Some w ->
  state (self w) = ImageState.LOADED ->
  exists w',
    run acts w = Some w'
    /\ state (self w') = ImageState.LOADED
    /\ resolution (self w') = resolution (self w)
    /\ listeners w' = []
    /\ log w' = log w.
Proof.
  intros Hrun Hs.
  destruct (reach_inv d e res pr src co acts0 w Hrun) as (Hc & _).
  assert (Hl : listeners w = []).
  { unfold consistent in Hc. rewrite Hs in Hc. tauto. }
  destruct (invariant_from
              (fun v => state (self v) = ImageState.LOADED
                        /\ resolution (self v) = resolution (self w)
                        /\ listeners v = []
                        /\ log v = log w) acts) with (w := w)
    as (w' & Hrun' & _ & HP); auto.
  - intros v a v' _ (P1 & P2 & P3 & P4) _ _ [Q | [St | Co]].
    + destruct Q as (Q1 & _ & Q3 & Q4 & Q5). repeat split; congruence.
    + destruct St as ([St | St] & _); congruence.
    + destruct Co as (t & s0 & ty1 & ty2 & C1 & _). congruence.
  - exists w'. tauto.
Qed.

Lemma outside_episode (w : World) :
  consistent w -> state (self w) <> ImageState.LOADING ->
  imageListenerKeys_ (self w) = None /\ listeners w = [].
Proof.
  unfold consistent. intros Hc Hs.
  destruct (state (self w)); try exact Hc. contradiction.
Qed.

Lemma inside_episode (w : World) (t : Raster) :
  consistent w -> listeners w = keys_of t ->
  state (self w) = ImageState.LOADING
  /\ imageListenerKeys_ (self w) = Some (keys_of t).
Proof.
  unfold consistent. intros Hc Hl.
  destruct (state (self w));
    try (destruct Hc as [_ Hl']; rewrite Hl' in Hl; discriminate).
  destruct Hc as (t' & Hk & Hl'). rewrite Hl' in Hl.
  injection Hl as ->. auto.
Qed.

(** X2. Outside a Loading episode the rasters are not listened to: a
    failure signal of any raster leaves the world as it is, and a success
    signal changes nothing but the decoded height of that raster. *)
Theorem signals_outside_episode_are_ignored (acts : list Action) (w : World) :
  run acts init = Some w ->
  state (self w) <> ImageState.LOADING ->
  forall r,
    step w (RasterFails r) = Some w
    /\ forall px, step w (RasterLoads r px) = Some (decoded r px w).
Proof.
  intros Hrun Hs r.
  destruct (reach_inv d e res pr src co acts w Hrun) as (Hc & _).
  destruct (outside_episode w Hc Hs) as (_ & Hl). simpl. split.
  - apply unheard. rewrite Hl. reflexivity.
  - intros px. apply unheard. simpl. rewrite Hl. reflexivity.
Qed.

(** X3. Outside a Loading episode the stored key list is null, so the
    private methods [unlistenImage_], [handleImageError_] and
    [handleImageLoad_] throw when invoked directly. *)
Theorem handlers_throw_outside_episode (acts : list Action) (w : World) :
  run acts init = Some w ->
  state (self w) <> ImageState.LOADING ->
  unlistenImage_ w = None
  /\ handleImageError_ w = None
  /\ handleImageLoad_ w = None.
Proof.
  intros Hrun Hs.
  destruct (reach_inv d e res pr src co acts w Hrun) as (Hc & _).
  destruct (outside_episode w Hc Hs) as (Hk & _).
  unfold handleImageError_, handleImageLoad_, unlistenImage_.
  destruct (resolution (self w)); simpl; rewrite Hk; auto.
Qed.

(** X4. The listeners stay on the raster that was current when [load()]
    ran.  After [setImage(h)] during a Loading episode with another
    raster [t], the signals of [h] are ignored, a failure of [t] ends the
    episode in Error, and a success of [t] ends it in Loaded with an unset
    resolution derived from the height of [h], not from the pixel height
    [t] loaded with. *)
Theorem setImage_does_not_move_listeners
  (acts : list Action) (w : World) (t h : Raster) :
  run acts init = Some w ->
  listeners w = keys_of t ->
  h <> t ->
  step (setImage h w) (RasterFails h) = Some (setImage h w)
  /\ (forall px, step (setImage h w) (RasterLoads h px)
                 = Some (decoded h px (setImage h w)))
  /\ (exists w', step (setImage h w) (RasterFails t) = Some w'
                 /\ state (self w') = ImageState.ERROR
                 /\ getImage w' = h)
  /\ (forall px, exists w',
        step (setImage h w) (RasterLoads t px) = Some w'
        /\ state (self w') = ImageState.LOADED
        /\ getImage w' = h
        /\ (resolution (self w) = None ->
            resolution (self w')
            = Some (PrimFloat.div (getHeight e)
                                  (height (elements (dom w) h))))).
Proof.
  intros Hrun Hl Hne.
  destruct (reach_inv d e res pr src co acts w Hrun) as (Hc & He & _).
  destruct (inside_episode w t Hc Hl) as (Hs & Hk).
  assert (Hother : filter (on_event h EventType.ERROR) (keys_of t) = []
                   /\ filter (on_event h EventType.LOAD) (keys_of t) = []).
  { split; apply other_raster; congruence. }
  destruct Hother as (Ho1 & Ho2).
  split; [|split; [|split]].
  - simpl. apply unheard. simpl. rewrite Hl. exact Ho1.
  - intros px. simpl. apply unheard. simpl. rewrite Hl. exact Ho2.
  - destruct (completes_error (setImage h w) t Hk Hl)
      as (w' & S0 & S1 & _ & _ & _ & _ & S6 & _).
    exists w'. unfold getImage. auto.
  - intros px.
    destruct (completes_load (decoded t px (setImage h w)) t Hk Hl)
      as (w' & S0 & S1 & _ & _ & _ & S5 & S6 & _).
    exists w'. unfold getImage. repeat split; auto.
    intros Hnone. rewrite S5. simpl. rewrite Hnone, He.
    destruct (Nat.eqb_spec h t); [contradiction | reflexivity].
Qed.

(** X5. [load()] listens on the handle it finds: after [setImage(h)] in
    state Idle or Error, [load()] enters Loading, registers both listeners
    on [h], invokes the load function with the source given at
    construction, and the success of [h] with pixel height [px] ends the
    episode, deriving an unset resolution from [px]. *)
Theorem load_listens_on_injected_handle
  (acts : list Action) (w : World) (h : Raster) :
  run acts init = Some w ->
  state (self w) = ImageState.IDLE \/ state (self w) = ImageState.ERROR ->
  state (self (load (setImage h w))) = ImageState.LOADING
  /\ listeners (load (setImage h w)) = keys_of h
  /\ log (load (setImage h w))
     = log w ++ [Changed ImageState.LOADING;
                 AddEventListener h EventType.ERROR;
                 AddEventListener h EventType.LOAD;
                 ImageLoadFunction src]
  /\ forall px, exists w',
       run [CallSetImage h; CallLoad; RasterLoads h px] w = Some w'
       /\ state (self w') = ImageState.LOADED
       /\ (resolution (self w) = None ->
           resolution (self w') = Some (PrimFloat.div (getHeight e) px)).
Proof.
  intros Hrun Hs.
  destruct (reach_inv d e res pr src co acts w Hrun) as (Hc & He & Hsrc & _).
  assert (Hl : listeners (setImage h w) = []).
  { apply (outside_episode w Hc).
    destruct Hs as [Hs | Hs]; rewrite Hs; discriminate. }
  destruct (load_starts (setImage h w) Hs Hl)
    as (S1 & S2 & S3 & S4 & S5 & S6 & S7 & S8 & S9).
  simpl in S2, S3, S4, S5, S6, S7, S8. rewrite Hsrc in S4.
  split; [exact S1|]. split; [exact S3|]. split; [exact S4|].
  intros px.
  destruct (completes_load (decoded h px (load (setImage h w))) h S2 S3)
    as (w' & T0 & T1 & _ & _ & _ & T5 & _).
  exists w'. simpl. rewrite T0. simpl. split; [reflexivity|].
  split; [exact T1|]. intros Hnone. rewrite T5. simpl.
  rewrite S5, Hnone, S7, He, S6, Nat.eqb_refl. reflexivity.
Qed.

(** X6. No listener leaks: after every run on a constructed wrapper the
    registrations made on rasters are the removals made plus the listeners
    still registered, and those are two during a Loading episode and none
    outside. *)
Theorem listeners_are_balanced (acts : list Action) :
  exists w,
    run acts init = Some w
    /\ added (log w) = removed (log w) + List.length (listeners w)
    /\ List.length (listeners w)
       = (if ImageState.eqb (state (self w)) ImageState.LOADING
          then 2 else 0).
Proof.
  destruct (invariant_rule
              (fun v => added (log v)
                        = removed (log v) + List.length (listeners v)))
    with (acts := acts) as (w & Hrun & Hc & HP).
  - reflexivity.
  - intros v a v' _ P _ _ [Q | [St | Co]].
    + destruct Q as (_ & _ & _ & Q4 & Q5). congruence.
    + destruct St as (_ & S2 & _ & S4 & S5 & _).
      rewrite S5, S4, added_app, removed_app, P, S2. simpl. lia.
    + destruct Co as (t & s0 & ty1 & ty2 & _ & C2 & _ & _ & C5 & C6 & _).
      rewrite C6, C5, added_app, removed_app, P, C2. simpl. lia.
  - exists w. split; [exact Hrun|]. split; [exact HP|].
    unfold consistent in Hc.
    destruct (state (self w)); simpl;
      try (destruct Hc as [_ ->]; reflexivity).
    destruct Hc as (t & _ & ->). reflexivity.
Qed.

(** X7. After every run on a constructed wrapper the load function has
    been invoked once per Loading notification; every Loading notification
    but that of an episode still running is matched by one Loaded or Error
    notification; Loaded has been notified once if the state is Loaded and
    never otherwise; and Idle is never notified. *)
Theorem episodes_are_counted (acts : list Action) :
  exists w, run acts init = Some w /\ episodes_counted w.
Proof.
  destruct (invariant_rule episodes_counted) with (acts := acts)
    as (w & Hrun & _ & HP).
  - unfold episodes_counted. auto.
  - unfold episodes_counted.
    intros v a v' _ (P1 & P2 & P3 & P4) _ _ [Q | [St | Co]].
    + destruct Q as (Q1 & _ & _ & _ & Q5). rewrite Q5, Q1. auto.
    + destruct St as (S1 & _ & S3 & _ & S5 & _).
      rewrite S5, S3, invocations_app, !times_app, P1, P2, P3, P4.
      destruct S1 as [-> | ->]; simpl; unfold times; simpl; lia.
    + destruct Co as (t & s0 & ty1 & ty2 & C1 & _ & C3 & C4 & _ & C6 & _).
      rewrite C6, C4, invocations_app, !times_app, P1, P2, P3, P4.
      rewrite C1 in *.
      destruct C3 as [-> | ->]; simpl; unfold times; simpl; lia.
  - eauto.
Qed.

(** X8. The construction parameters are never written: after every run
    the extent, the pixel ratio and the source are those given to the
    constructor, and every invocation of the load function in the log
    passed that source. *)
Theorem construction_parameters_are_kept (acts : list Action) :
  exists w,
    run acts init = Some w
    /\ extent (self w) = e
    /\ pixelRatio (self w) = pr
    /\ src_ (self w) = src
    /\ Forall (sourced src) (log w).
Proof.
  destruct (invariant_rule
              (fun v => extent (self v) = e /\ pixelRatio (self v) = pr
                        /\ src_ (self v) = src
                        /\ Forall (sourced src) (log v)))
    with (acts := acts) as (w & Hrun & _ & HP).
  - unfold new_ImageWrapper. simpl. auto.
  - intros v a v' _ (P1 & P2 & P3 & P4) _ (F1 & F2 & F3 & _) Hsh.
    split; [congruence|]. split; [congruence|]. split; [congruence|].
    destruct Hsh as [Q | [St | Co]].
    + destruct Q as (_ & _ & _ & _ & Q5). rewrite Q5. exact P4.
    + destruct St as (_ & _ & _ & _ & S5 & _). rewrite S5.
      apply Forall_app. split; [exact P4|].
      repeat constructor. exact P3.
    + destruct Co as (t & s0 & ty1 & ty2 & _ & _ & _ & _ & _ & C6 & _).
      rewrite C6. apply Forall_app. split; [exact P4|].
      repeat constructor.
  - exists w. tauto.
Qed.

(** X9. A resolution given at construction is the resolution after every
    run; one left unset is unset exactly as long as the state is not
    Loaded, so a Loaded wrapper always has a resolution. *)
Theorem resolution_is_set_iff_loaded (acts : list Action) :
  exists w,
    run acts init = Some w
    /\ (forall x, res = Some x -> resolution (self w) = Some x)
    /\ (res = None ->
        (resolution (self w) = None
         <-> state (self w) <> ImageState.LOADED)).
Proof.
  destruct (invariant_rule
              (fun v => state (self v) = ImageState.LOADED ->
                        resolution (self v) <> None))
    with (acts := acts) as (w & Hrun & _ & HP).
  - unfold new_ImageWrapper. simpl. discriminate.
  - intros v a v' _ P _ _ [Q | [St | Co]].
    + destruct Q as (Q1 & _ & Q3 & _). rewrite Q1, Q3. exact P.
    + destruct St as (_ & _ & S3 & _). rewrite S3. discriminate.
    + destruct Co as (t & s0 & ty1 & ty2 & _ & _ & C3 & C4 & _ & _ & C7 & _).
      rewrite C4. destruct C3 as [-> | ->]; [auto | discriminate].
  - exists w. split; [exact Hrun|].
    destruct (reach_inv d e res pr src co acts w Hrun)
      as (_ & _ & _ & Hnone & Hsome).
    split; [exact Hsome|]. intros Hres. split.
    + intros Hn Hs. exact (HP Hs Hn).
    + apply Hnone, Hres.
Qed.

(** X10. The cross-origin policy is written once, at construction, on
    the image the constructor creates: after every run that image carries
    the policy given to the constructor (none if it was null) and every
    other raster the policy it had before. *)
Theorem crossOrigin_is_set_at_construction_only (acts : list Action) :
  exists w,
    run acts init = Some w
    /\ getImage init = next d
    /\ crossOrigin (elements (dom w) (next d)) = co
    /\ forall r, r <> next d ->
         crossOrigin (elements (dom w) r) = crossOrigin (elements d r).
Proof.
  destruct (invariant_rule
              (fun v => forall r, crossOrigin (elements (dom v) r)
                                  = crossOrigin (elements (dom init) r)))
    with (acts := acts) as (w & Hrun & _ & HP).
  - reflexivity.
  - intros v a v' _ P _ (_ & _ & _ & F4 & _) _ r. rewrite F4. apply P.
  - exists w. split; [exact Hrun|]. split; [reflexivity|]. split.
    + rewrite HP. unfold new_ImageWrapper. simpl.
      destruct co; simpl; rewrite Nat.eqb_refl; reflexivity.
    + intros r Hr. rewrite HP. unfold new_ImageWrapper. simpl.
      destruct co; simpl; destruct (Nat.eqb_spec r (next d));
        try contradiction; reflexivity.
Qed.

Lemma last_default_raster (l : list Raster) (a x : Raster) :
  last (a :: l) x = last l a.
Proof.
  revert a x. induction l as [ | b l IH]; intros a x; [reflexivity|].
  change (last (a :: b :: l) x) with (last (b :: l) x).
  rewrite (IH b x), (IH b a). reflexivity.
Qed.

Lemma handle_after_run (acts : list Action) :
  forall w, consistent w ->
    exists w', run acts w = Some w'
               /\ getImage w' = last (injected acts) (getImage w).
Proof.
  induction acts as [ | a acts IH]; intros w Hc; simpl.
  - exists w. auto.
  - destruct (step_shape w a Hc) as (w1 & Hs & Hc1 & _).
    rewrite Hs. simpl.
    destruct (IH w1 Hc1) as (w' & Hrun & Hlast).
    exists w'. split; [exact Hrun|]. rewrite Hlast.
    destruct (step_framed w a w1 Hs) as (_ & _ & _ & _ & Hi).
    unfold getImage.
    destruct a; simpl; rewrite ?Hi; try reflexivity.
    symmetry. apply last_default_raster.
Qed.

(** X14. [getImage()] returns the handle of the latest [setImage] call,
    or the image made by the constructor if there was none: no [load()]
    and no raster signal replaces the handle. *)
Theorem getImage_returns_latest_handle (acts : list Action) :
  exists w,
    run acts init = Some w
    /\ getImage w = last (injected acts) (next d).
Proof.
  exact (handle_after_run acts init (init_consistent d e res pr src co)).
Qed.

End Episodes.

(** ** The sample wrapper, further *)

(** The sample wrapper is Loaded after one success; nothing moves it. *)
Lemma loaded_is_final_at_sample :
  exists w w',
    run [CallLoad; RasterLoads 0 50] sample = Some w
    /\ state (self w) = ImageState.LOADED
    /\ run [CallLoad; RasterFails 0; CallSetImage 3; RasterLoads 3 10; CallLoad]
           w = Some w'
    /\ state (self w') = ImageState.LOADED
    /\ log w' = log w.
Proof.
  eexists.
  destruct (loaded_is_final sample_dom sample_extent None 1 "tile.png" None
              [CallLoad; RasterLoads 0 50]
              [CallLoad; RasterFails 0; CallSetImage 3; RasterLoads 3 10;
               CallLoad] _ eq_refl eq_refl)
    as (w' & H1 & H2 & _ & _ & H5).
  exists w'. split; [reflexivity|]. split; [reflexivity|]. auto.
Defined.

(** The fresh sample wrapper ignores the signals of its raster. *)
Lemma signals_ignored_at_sample :
  run [] sample = Some sample
  /\ state (self sample) <> ImageState.LOADING
  /\ step sample (RasterFails 0) = Some sample
  /\ step sample (RasterLoads 0 50) = Some (decoded 0 50 sample).
Proof.
  split; [reflexivity|]. split; [discriminate|].
  destruct (signals_outside_episode_are_ignored sample_dom sample_extent None
              1 "tile.png" None [] sample eq_refl ltac:(discriminate) 0)
    as (H1 & H2).
  split; [exact H1 | exact (H2 50%float)].
Defined.

(** On the fresh sample wrapper the private handlers throw. *)
Lemma handlers_throw_at_sample :
  run [] sample = Some sample
  /\ state (self sample) <> ImageState.LOADING
  /\ handleImageError_ sample = None
  /\ handleImageLoad_ sample = None.
Proof.
  split; [reflexivity|]. split; [discriminate|].
  destruct (handlers_throw_outside_episode sample_dom sample_extent None
              1 "tile.png" None [] sample eq_refl ltac:(discriminate))
    as (_ & H2 & H3).
  split; assumption.
Defined.

(** The sample wrapper is given raster 7, of height 0, while raster 0
    loads: the success of raster 0 with 50 pixels divides by 0. *)
Lemma setImage_during_loading_at_sample :
  run [CallLoad] sample = Some (load sample)
  /\ listeners (load sample) = keys_of 0
  /\ 7 <> 0
  /\ exists w',
       step (setImage 7 (load sample)) (RasterLoads 0 50) = Some w'
       /\ state (self w') = ImageState.LOADED
       /\ resolution (self w') = Some infinity.
Proof.
  split; [reflexivity|]. split; [reflexivity|]. split; [discriminate|].
  destruct (setImage_does_not_move_listeners sample_dom sample_extent None
              1 "tile.png" None [CallLoad] (load sample) 0 7
              eq_refl eq_refl ltac:(discriminate))
    as (_ & _ & _ & H4).
  destruct (H4 50%float) as (w' & H5 & H6 & _ & H8).
  exists w'. split; [exact H5|]. split; [exact H6|]. exact (H8 eq_refl).
Defined.

(** The sample wrapper is given raster 7 before it loads. *)
Lemma load_on_injected_handle_at_sample :
  run [] sample = Some sample
  /\ state (self sample) = ImageState.IDLE
  /\ listeners (load (setImage 7 sample)) = keys_of 7
  /\ exists w',
       run [CallSetImage 7; CallLoad; RasterLoads 7 50] sample = Some w'
       /\ resolution (self w') = Some 2%float.
Proof.
  split; [reflexivity|]. split; [reflexivity|].
  destruct (load_listens_on_injected_handle sample_dom sample_extent None
              1 "tile.png" None [] sample 7 eq_refl (or_introl eq_refl))
    as (_ & H2 & _ & H4).
  split; [exact H2|].
  destruct (H4 50%float) as (w' & H5 & _ & H7).
  exists w'. split; [exact H5 | exact (H7 eq_refl)].
Defined.

(** * Further properties of the style binding bridge *)

Section BridgeChanges.

Import StyleBridge.

Variable child : StyleIconDirective.

Lemma last_cons (A : Type) (l : list A) :
  forall a x : A, last (a :: l) x = last l a.
Proof.
  induction l as [ | b l IH]; intros a x; [reflexivity|].
  change (last (a :: b :: l) x) with (last (b :: l) x).
  rewrite (IH b x), (IH b a). reflexivity.
Qed.

Lemma last_app (A : Type) (l l' : list A) :
  forall x : A, last (l ++ l') x = last l' (last l x).
Proof.
  induction l as [ | a l IH]; intros x; [reflexivity|].
  simpl app. rewrite !last_cons. apply IH.
Qed.

(** Without a subscriber, a change of inputs is stored and nothing else
    happens. *)
Lemma bindAll_unsubscribed (cs : list StyleIconDirective) :
  forall w, subscribers w = [] ->
    bindAll cs w
    = mkWorld (last cs (iconStyleDirective w)) [] (childSubscription w)
              (allocated w) (calls w).
Proof.
  induction cs as [ | c cs IH]; intros w Hs.
  - destruct w; simpl in *; subst; reflexivity.
  - change (bindAll (c :: cs) w) with (bindAll cs (bindInputs c w)).
    assert (Hb : bindInputs c w
                 = mkWorld c [] (childSubscription w) (allocated w) (calls w)).
    { unfold bindInputs, ngOnChanges, emit. simpl. rewrite Hs. reflexivity. }
    rewrite Hb, IH by reflexivity. simpl iconStyleDirective.
    rewrite last_cons. reflexivity.
Qed.

Lemma update_in_sync (w : World) (c : StyleIconDirective) :
  subscribers w = [(2, CallUpdate)] ->
  childSubscription w = Some 2 ->
  in_sync (bindInputs c w)
  /\ iconStyleDirective (bindInputs c w) = c
  /\ List.length (pushed (calls (bindInputs c w)))
     = S (List.length (pushed (calls w))).
Proof.
  intros Hs Hc. unfold bindInputs, ngOnChanges, emit. simpl. rewrite Hs.
  simpl. unfold in_sync, update. simpl.
  rewrite pushed_app, length_app. simpl.
  split; [|split; [reflexivity | lia]].
  split; [reflexivity|]. split; [exact Hc|].
  do 2 eexists. split; [reflexivity|].
  unfold mirrors. simpl. repeat split.
Qed.

Lemma bindAll_in_sync (cs : list StyleIconDirective) :
  forall w, in_sync w ->
    in_sync (bindAll cs w)
    /\ iconStyleDirective (bindAll cs w) = last cs (iconStyleDirective w)
    /\ List.length (pushed (calls (bindAll cs w)))
       = List.length (pushed (calls w)) + List.length cs.
Proof.
  induction cs as [ | c cs IH]; intros w Hw.
  - simpl. auto.
  - change (bindAll (c :: cs) w) with (bindAll cs (bindInputs c w)).
    destruct Hw as (Hs & Hc & _).
    destruct (update_in_sync w c Hs Hc) as (H1 & H2 & H3).
    destruct (IH _ H1) as (I1 & I2 & I3).
    split; [exact I1|]. rewrite I2, I3, H2, H3, last_cons. simpl.
    split; [reflexivity | lia].
Qed.

Lemma content_init_in_sync (cs0 : list StyleIconDirective) :
  in_sync (ngAfterContentInit (bindAll cs0 (new_StyleComponent child)))
  /\ pushed (calls (bindAll cs0 (new_StyleComponent child))) = []
  /\ List.length (pushed (calls (ngAfterContentInit
                     (bindAll cs0 (new_StyleComponent child))))) = 1
  /\ iconStyleDirective (ngAfterContentInit
                           (bindAll cs0 (new_StyleComponent child)))
     = last cs0 child.
Proof.
  rewrite bindAll_unsubscribed by reflexivity. simpl.
  split; [|auto]. unfold in_sync. simpl.
  split; [reflexivity|]. split; [reflexivity|].
  exists [], (mkStyle 1 (mkIcon 0 (mkIconOptions
    (anchor (last cs0 child)) (anchorOrigin (last cs0 child))
    (anchorXUnits (last cs0 child)) (anchorYUnits (last cs0 child))
    (color (last cs0 child)) (crossOrigin (last cs0 child))
    (img (last cs0 child)) (offset (last cs0 child))
    (offsetOrigin (last cs0 child)) (opacity (last cs0 child))
    (scale (last cs0 child)) (snapToPixel (last cs0 child))
    (rotateWithView (last cs0 child)) (rotation (last cs0 child))
    (size (last cs0 child)) (imgSize (last cs0 child))
    (src (last cs0 child))))).
  split; [reflexivity|]. unfold mirrors. simpl. repeat split.
Qed.

(** X11. The host shows the current inputs.  Whatever inputs are bound
    before content initialisation ([cs0]) and after it ([cs]), the host
    has received nothing before, one style per binding after plus the
    initial one, and the latest style copies each input of the latest
    binding to the icon option of the same name. *)
Theorem host_style_follows_inputs (cs0 cs : list StyleIconDirective) :
  let w := bindAll cs (ngAfterContentInit
                         (bindAll cs0 (new_StyleComponent child))) in
  pushed (calls (bindAll cs0 (new_StyleComponent child))) = []
  /\ List.length (pushed (calls w)) = 1 + List.length cs
  /\ iconStyleDirective w = last (cs0 ++ cs) child
  /\ exists pre s, pushed (calls w) = pre ++ [s]
                   /\ mirrors s (last (cs0 ++ cs) child).
Proof.
  destruct (content_init_in_sync cs0) as (H1 & H2 & H3 & H4).
  destruct (bindAll_in_sync cs _ H1) as ((_ & _ & pre & s & I1 & I2) & I3 & I4).
  simpl. rewrite last_app, I3, I4, H3, H4.
  split; [exact H2|]. split; [reflexivity|]. split; [reflexivity|].
  rewrite I3, H4 in I2. eauto.
Qed.

(** X12. [ngOnDestroy] before content initialisation throws, whatever
    inputs were bound: there is no subscription to end.  After content
    initialisation it returns, ends the subscription made then, and from
    there on no binding of inputs ([cs']) gives the host a style. *)
Theorem destroy_ends_the_subscription (cs0 cs cs' : list StyleIconDirective) :
  let w := bindAll cs (ngAfterContentInit
                         (bindAll cs0 (new_StyleComponent child))) in
  ngOnDestroy (bindAll cs0 (new_StyleComponent child)) = None
  /\ exists w',
       ngOnDestroy w = Some w'
       /\ subscribers w = [(2, CallUpdate)]
       /\ subscribers w' = []
       /\ calls w' = calls w ++ [Unsubscribe 2]
       /\ pushed (calls (bindAll cs' w')) = pushed (calls w).
Proof.
  simpl. split.
  - rewrite bindAll_unsubscribed by reflexivity. reflexivity.
  - destruct (content_init_in_sync cs0) as (H1 & _).
    destruct (bindAll_in_sync cs _ H1) as ((Hs & Hc & _) & _).
    unfold ngOnDestroy. rewrite Hc. eexists. split; [reflexivity|].
    split; [exact Hs|]. unfold unsubscribe. rewrite Hs. simpl.
    split; [reflexivity|]. split; [reflexivity|].
    rewrite bindAll_unsubscribed by reflexivity. simpl.
    rewrite pushed_app. simpl. apply app_nil_r.
Qed.

Lemma update_fresh (w : World) : fresh_objects w -> fresh_objects (update w).
Proof.
  unfold fresh_objects, update, objects. simpl.
  intros (Hn & Hf). rewrite pushed_app, flat_map_app. simpl. split.
  - apply NoDup_app; [exact Hn | |].
    + repeat constructor; simpl; intuition lia.
    + intros n Hin. rewrite Forall_forall in Hf. specialize (Hf n Hin).
      simpl. lia.
  - apply Forall_app. split.
    + eapply Forall_impl; [|exact Hf]. simpl. intros; lia.
    + repeat constructor; lia.
Qed.

Lemma bindAll_fresh (cs : list StyleIconDirective) :
  forall w, in_sync w -> fresh_objects w -> fresh_objects (bindAll cs w).
Proof.
  induction cs as [ | c cs IH]; intros w Hw Hf; [exact Hf|].
  change (bindAll (c :: cs) w) with (bindAll cs (bindInputs c w)).
  destruct Hw as (Hs & Hc & _).
  apply IH; [apply (update_in_sync w c Hs Hc)|].
  unfold bindInputs, ngOnChanges, emit. simpl. rewrite Hs. simpl.
  apply update_fresh. exact Hf.
Qed.

(** X13. Every style given to the host is built anew: whatever inputs
    are bound before and after content initialisation, no style object
    and no icon object reaches the host twice, and no icon is shared by
    two styles. *)
Theorem every_style_is_a_new_object (cs0 cs : list StyleIconDirective) :
  NoDup (objects (pushed (calls
           (bindAll cs (ngAfterContentInit
                          (bindAll cs0 (new_StyleComponent child))))))).
Proof.
  destruct (content_init_in_sync cs0) as (H1 & _).
  refine (proj1 (bindAll_fresh cs _ H1 _)).
  rewrite bindAll_unsubscribed by reflexivity.
  unfold fresh_objects, objects. simpl. split.
  - repeat constructor; simpl; intuition lia.
  - repeat constructor; lia.
Qed.

End BridgeChanges.
